(** * rDock scoring-expression tokenizer: [RbtStringTokenIter]

    A shallow embedding of [src/lib/RbtStringTokenIter.cxx] together with
    the parts of the C and C++ run-time it calls ([strtod], the formatted
    extraction [istream >> std::string]) and of the [RbtContext] symbol
    table, followed by the properties of the tokenizer that the
    specification states.

    Conventions.
    - [RbtString] is [string]; a character is an [ascii].
    - [RbtDouble] is an IEEE-754 binary64 number, [spec_float] with
      precision 53 and maximal exponent 1024.
    - The smart pointers [filep] and [contextp] are represented by the
      objects they point to, threaded through the iterator's state.
    - A C++ exception is the left summand of the result; the state that
      comes with it is the state at the point of the [throw]. *)

From Stdlib Require Import ZArith Ascii String.
From Stdlib Require Import Floats.SpecFloat.
From stdpp Require Import gmap strings list fin_maps pretty.

(** ** Characters in the C locale *)

Module CType.

Definition code (c : ascii) : Z := Z.of_N (N_of_ascii c).

(** [isspace]: space, and the controls HT, LF, VT, FF, CR. *)
Definition isspace (c : ascii) : bool :=
  (code c =? 32)%Z || ((9 <=? code c)%Z && (code c <=? 13)%Z).

Definition isdigit (c : ascii) : bool :=
  (48 <=? code c)%Z && (code c <=? 57)%Z.

Definition isupper (c : ascii) : bool :=
  (65 <=? code c)%Z && (code c <=? 90)%Z.

Definition islower (c : ascii) : bool :=
  (97 <=? code c)%Z && (code c <=? 122)%Z.

Definition tolower (c : ascii) : ascii :=
  if isupper c then ascii_of_N (Z.to_N (code c + 32)) else c.

(** Value of a decimal digit. *)
Definition digit_value (c : ascii) : option Z :=
  if isdigit c then Some (code c - 48)%Z else None.

(** Value of a hexadecimal digit, either case. *)
Definition xdigit_value (c : ascii) : option Z :=
  if isdigit c then Some (code c - 48)%Z
  else let l := code (tolower c) in
       if (97 <=? l)%Z && (l <=? 102)%Z then Some (l - 87)%Z else None.

(** The characters allowed between the parentheses of [nan(...)]. *)
Definition is_nchar (c : ascii) : bool :=
  isdigit c || isupper c || islower c || (code c =? 95)%Z.

End CType.

(** ** Binary64 numbers *)

Module Double.

Definition prec : Z := 53.
Definition emax : Z := 1024.

Definition RbtDouble : Type := spec_float.

Definition zero : RbtDouble := S754_zero false.
Definition infinity (neg : bool) : RbtDouble := S754_infinity neg.
Definition nan : RbtDouble := S754_nan.

(** The binary64 number nearest to [(-1)^neg * n / d] (ties to even),
    for [n], [d] positive: the quotient is taken with enough bits and the
    position of the remainder, then rounded once. *)
Definition of_ratio (neg : bool) (n d : Z) : RbtDouble :=
  let '(q, e, l) := SFdiv_core_binary prec emax n 0 d 0 in
  binary_round_aux prec emax neg q e l.

(** Whether the finite number [x] is exactly [n / d] in magnitude. *)
Definition is_ratio (x : RbtDouble) (n d : Z) : bool :=
  match x with
  | S754_zero _ => (n =? 0)%Z
  | S754_finite _ m e =>
      (n * 2 ^ Z.max (- e) 0 =? Z.pos m * 2 ^ Z.max e 0 * d)%Z
  | _ => false
  end.

(** Zero or subnormal: below the least normal number [2^-1022]. *)
Definition is_tiny (x : RbtDouble) : bool :=
  match x with
  | S754_zero _ => true
  | S754_finite _ m _ => (Z.pos (digits2_pos m) <? prec)%Z
  | _ => false
  end.

Definition is_infinite (x : RbtDouble) : bool :=
  match x with S754_infinity _ => true | _ => false end.

End Double.

Export Double.

(** ** [strtod]

    The conversion of the C library in the "C" locale, after the C
    standard: optional white space, an optional sign, then a decimal or a
    hexadecimal floating constant, [inf] or [infinity], or [nan] with an
    optional parenthesised tail, letters in either case.  The number
    returned is the binary64 number nearest to the text (ties to even).
    [errno] becomes [ERANGE] when the number overflows and, as in the GNU C
    library, when it underflows to a tiny inexact result (the standard
    leaves the second case to the implementation). *)

Module CStdlib.

Import CType.

Definition ERANGE : Z := 34.

(** What a call leaves behind: the returned number, the characters from
    [*endptr] to the terminating NUL, and [errno] (which the caller has
    cleared before the call). *)
Record strtod_result : Type := StrtodResult {
  sr_value : RbtDouble;
  sr_endptr : string;
  sr_errno : Z
}.

(** The text of a number, before rounding. *)
Inductive literal : Type :=
| LitRatio (neg : bool) (num den : Z)
| LitInf (neg : bool)
| LitNan.

Fixpoint skip_spaces (s : string) : string :=
  match s with
  | String c r => if isspace c then skip_spaces r else s
  | EmptyString => s
  end.

(** Reads the longest run of digits recognised by [val], accumulating
    them in base [base] onto [acc]; returns the accumulated number, how
    many digits were read, and what follows. *)
Fixpoint read_digits (val : ascii -> option Z) (base acc : Z) (s : string)
  : Z * Z * string :=
  match s with
  | String c r =>
      match val c with
      | Some d =>
          let '(m, n, r') := read_digits val base (acc * base + d)%Z r in
          (m, (n + 1)%Z, r')
      | None => (acc, 0%Z, s)
      end
  | EmptyString => (acc, 0%Z, s)
  end.

(** Digits, an optional radix point, digits.  Returns the digits read as
    one integer, the number of all digits, the number of digits after the
    point, and what follows. *)
Definition read_mantissa (val : ascii -> option Z) (base : Z) (s : string)
  : Z * Z * Z * string :=
  let '(m1, n1, r1) := read_digits val base 0%Z s in
  match r1 with
  | String "." r =>
      let '(m2, n2, r2) := read_digits val base m1 r in
      (m2, (n1 + n2)%Z, n2, if (0 <? n1 + n2)%Z then r2 else r1)
  | _ => (m1, n1, 0%Z, r1)
  end.

(** An optional exponent part introduced by [mark] (lower case, matched
    in either case): sign and at least one decimal digit.  Without a
    digit nothing is consumed. *)
Definition read_exponent (mark : ascii) (s : string) : Z * string :=
  match s with
  | String c r =>
      if Ascii.eqb (tolower c) mark then
        let '(neg, r0) :=
          match r with
          | String "-" r' => (true, r')
          | String "+" r' => (false, r')
          | _ => (false, r)
          end in
        let '(e, n, r1) := read_digits digit_value 10 0%Z r0 in
        if (0 <? n)%Z then (if neg then (- e)%Z else e, r1) else (0%Z, s)
      else (0%Z, s)
  | EmptyString => (0%Z, s)
  end.

(** [m * base^e] as a fraction of non-negative integers. *)
Definition scaled (neg : bool) (m base e : Z) : literal :=
  LitRatio neg (m * base ^ Z.max e 0) (base ^ Z.max (- e) 0).

Definition read_decimal (neg : bool) (s : string) : option (literal * string) :=
  let '(m, n, k, r) := read_mantissa digit_value 10 s in
  if (0 <? n)%Z then
    let '(e, r') := read_exponent "e" r in
    Some (scaled neg m 10 (e - k), r')
  else None.

(** After [0x]: hexadecimal digits with an optional point, and an
    optional binary exponent. *)
Definition read_hexadecimal (neg : bool) (s : string) : option (literal * string) :=
  let '(m, n, k, r) := read_mantissa xdigit_value 16 s in
  if (0 <? n)%Z then
    let '(e, r') := read_exponent "p" r in
    Some (scaled neg m 2 (e - 4 * k), r')
  else None.

(** Whether [s] starts with [p] (given in lower case) in either case;
    returns what follows. *)
Fixpoint strip_prefix_nocase (p s : string) : option string :=
  match p, s with
  | EmptyString, _ => Some s
  | String a p', String c s' =>
      if Ascii.eqb (tolower c) a then strip_prefix_nocase p' s' else None
  | String _ _, EmptyString => None
  end.

Fixpoint skip_nchars (s : string) : string :=
  match s with
  | String c r => if is_nchar c then skip_nchars r else s
  | EmptyString => s
  end.

(** The subject sequence after the optional sign. *)
Definition read_unsigned (neg : bool) (s : string) : option (literal * string) :=
  match strip_prefix_nocase "inf" s with
  | Some r =>
      match strip_prefix_nocase "inity" r with
      | Some r' => Some (LitInf neg, r')
      | None => Some (LitInf neg, r)
      end
  | None =>
  match strip_prefix_nocase "nan" s with
  | Some r =>
      match r with
      | String "(" r1 =>
          match skip_nchars r1 with
          | String ")" r2 => Some (LitNan, r2)
          | _ => Some (LitNan, r)
          end
      | _ => Some (LitNan, r)
      end
  | None =>
  match strip_prefix_nocase "0x" s with
  | Some r =>
      match read_hexadecimal neg r with
      | Some res => Some res
      | None => read_decimal neg s
      end
  | None => read_decimal neg s
  end end end.

Definition read_literal (s : string) : option (literal * string) :=
  match skip_spaces s with
  | String "-" r => read_unsigned true r
  | String "+" r => read_unsigned false r
  | r => read_unsigned false r
  end.

(** Rounding of the text to binary64, with the range error: [ERANGE] on
    overflow, and on underflow when the result is tiny and inexact. *)
Definition round_literal (l : literal) : RbtDouble * Z :=
  match l with
  | LitInf neg => (infinity neg, 0%Z)
  | LitNan => (nan, 0%Z)
  | LitRatio neg n d =>
      if (n =? 0)%Z then (S754_zero neg, 0%Z)
      else
        let x := of_ratio neg n d in
        (x, if is_infinite x || (is_tiny x && negb (is_ratio x n d))
            then ERANGE else 0%Z)
  end.

(** [strtod(nptr, &endptr)] in the C locale, round-to-nearest mode.
    When no conversion can be performed the result is zero and
    [endptr = nptr]. *)
Definition strtod (nptr : string) : strtod_result :=
  match read_literal nptr with
  | Some (l, r) =>
      let '(x, e) := round_literal l in StrtodResult x r e
  | None => StrtodResult zero nptr 0%Z
  end.

End CStdlib.

Export CStdlib.

(** ** [std::string] and [std::istream] *)

Module Std.

Import CType.

(** [s.c_str()] as C code reads it: the characters before the first NUL. *)
Fixpoint c_str (s : string) : string :=
  match s with
  | String c r => if (code c =? 0)%Z then EmptyString else String c (c_str r)
  | EmptyString => EmptyString
  end.

(** [s.find(pat)]: the first position at which [pat] occurs in [s];
    [None] stands for [string::npos]. *)
Definition find (s pat : string) : option nat := String.index 0 pat s.

(** An input stream: the characters not yet extracted and the state
    flags [eofbit] and [failbit] (the buffer never fails by itself, so
    [badbit] stays clear). *)
Record istream : Type := IStream {
  is_buf : string;
  is_eof : bool;
  is_fail : bool
}.

Definition good (f : istream) : bool := negb (is_eof f) && negb (is_fail f).

(** A stream opened on the text [s]. *)
Definition istream_of (s : string) : istream := IStream s false false.

(** The longest run of non-space characters, and what follows it. *)
Fixpoint read_word (s : string) : string * string :=
  match s with
  | String c r =>
      if isspace c then (EmptyString, s)
      else let '(w, r') := read_word r in (String c w, r')
  | EmptyString => (EmptyString, s)
  end.

(** [f >> str] with the default flags ([skipws] set, width 0).  The
    sentry fails, setting [failbit], when the stream is not good; it
    skips white space and fails with [failbit | eofbit] when that reaches
    the end.  Only a successful sentry erases [str]; then a word is
    read, and [eofbit] is set if the end stopped it. *)
Definition extract (f : istream) (str : string) : istream * string :=
  if good f then
    match skip_spaces (is_buf f) with
    | EmptyString => (IStream EmptyString true true, str)
    | b =>
        let '(w, r) := read_word b in
        (IStream r (match r with EmptyString => true | _ => false end) false, w)
    end
  else (IStream (is_buf f) (is_eof f) true, str).

End Std.

Export Std.

(** ** The context: named variables *)

(** A variable: a name and a mutable value. *)
Record RbtVble : Type := mkRbtVble {
  GetName : string;
  GetValue : RbtDouble
}.

Definition SetValue (val : RbtDouble) (v : RbtVble) : RbtVble :=
  mkRbtVble (GetName v) val.

(** The string-keyed context.  [vm] maps a name to the address of its
    variable; [cells] is the memory holding the variables, an address
    being an index into it.  Tokens keep addresses, so a value written
    through the context is seen by every token that refers to it. *)
Record RbtContext : Type := mkRbtContext {
  vm : gmap string nat;
  cells : list RbtVble
}.

Definition empty_context : RbtContext := mkRbtContext ∅ [].

(** [vm[key] = new RbtVble(key, val)] for a key not in the map. *)
Definition new_vble (c : RbtContext) (key : string) (val : RbtDouble) : RbtContext :=
  mkRbtContext (<[key := length (cells c)]> (vm c)) (cells c ++ [mkRbtVble key val]).

(** Modelled from the spec: [RbtContext::Assign], whose definition is not
    in the sources at hand (section 4.3, "Assign(name, value) creates-or-
    overwrites the entry to the given value"; section 3, "assigning to an
    existing name overwrites its value in place"). *)
Definition Assign (c : RbtContext) (key : string) (val : RbtDouble) : RbtContext :=
  match vm c !! key with
  | Some p => mkRbtContext (vm c) (alter (SetValue val) p (cells c))
  | None => new_vble c key val
  end.

(** Modelled from the spec: [RbtContext::GetVble], whose definition is not
    in the sources at hand (section 4.3, "Lookup(name) creates the entry
    with value 0.0 if absent, otherwise returns the existing entry").  The
    reference it returns is the address of the variable. *)
Definition GetVble (c : RbtContext) (key : string) : RbtContext * nat :=
  match vm c !! key with
  | Some p => (c, p)
  | None => (new_vble c key zero, length (cells c))
  end.

(** Reading through an address ([RbtVble::GetValue] on a reference). *)
Definition deref (c : RbtContext) (p : nat) : option RbtVble := cells c !! p.

(** Every name of the map owns a variable of that name.  This holds of the
    empty context and is kept by [Assign] and [GetVble]. *)
Definition context_ok (c : RbtContext) : Prop :=
  map_Forall (λ key p, GetName <$> cells c !! p = Some key) (vm c).

(** ** Tokens and errors *)

Inductive RbtCommands : Type := ADD | SUB | MUL | DIV | IF | LOG | EXP | AND.

(** [RbtToken] has two constructors: from a command, and from a reference
    to a variable of the context. *)
Inductive RbtToken : Type :=
| Operator (comm : RbtCommands)
| VariableRef (vble : nat).

(** [RbtError(_WHERE_, message)]; the source location is left out. *)
Inductive RbtError : Type := mkRbtError (message : string).

Definition EmptyToken : RbtError :=
  mkRbtError "Missing token, can't translate the expression".

Definition UnrecognizedToken (s : string) : RbtError :=
  mkRbtError ("Can't read " +:+ s).

(** ** [RbtStringTokenIter] *)

Definition found (r : option nat) : bool :=
  match r with Some _ => true | None => false end.

(** [RbtStringTokenIter::translate], on the context [contextp] points to. *)
Definition translate (c : RbtContext) (s : string) : (RbtError + RbtToken) * RbtContext :=
  if (String.length s =? 0)%nat then (inl EmptyToken, c)
  else if String.eqb s "+" then (inr (Operator ADD), c)
  else if String.eqb s "-" then (inr (Operator SUB), c)
  else if String.eqb s "*" then (inr (Operator MUL), c)
  else if String.eqb s "/" then (inr (Operator DIV), c)
  else if String.eqb s "if" then (inr (Operator IF), c)
  else if String.eqb s "log" then (inr (Operator LOG), c)
  else if String.eqb s "exp" then (inr (Operator EXP), c)
  else if String.eqb s "and" then (inr (Operator AND), c)
  else if found (find s "SCORE") || found (find s "SITE") || found (find s "LIG")
  then
    let c1 := Assign c s zero in
    let '(c2, v) := GetVble c1 s in
    (inr (VariableRef v), c2)
  else
    let r := strtod (c_str s) in
    if (sr_errno r =? 0)%Z && (String.length (sr_endptr r) =? 0)%nat then
      let c1 := Assign c s (sr_value r) in
      let '(c2, v) := GetVble c1 s in
      (inr (VariableRef v), c2)
    else (inl (UnrecognizedToken s), c).

Record RbtStringTokenIter : Type := mkIter {
  current : option RbtToken;
  filep : istream;
  strtok : string;
  contextp : RbtContext
}.

Definition RbtContextPtr : Type := RbtContext.

(** The constructor: binds the stream and the context and reads the first
    word into the (empty) buffer; [current] starts as the null pointer. *)
Definition construct (fn : istream) (co : RbtContextPtr) : RbtStringTokenIter :=
  let '(fn', w) := extract fn EmptyString in
  mkIter None fn' w co.

Definition Next (it : RbtStringTokenIter) (_ : RbtContextPtr) : RbtStringTokenIter :=
  let '(fn', w) := extract (filep it) (strtok it) in
  mkIter (current it) fn' w (contextp it).

(** [current = translate(strtok); return current;] when [translate]
    throws, the assignment does not happen. *)
Definition Current (it : RbtStringTokenIter) : (RbtError + RbtToken) * RbtStringTokenIter :=
  match translate (contextp it) (strtok it) with
  | (inr t, c) => (inr t, mkIter (Some t) (filep it) (strtok it) c)
  | (inl e, c) => (inl e, mkIter (current it) (filep it) (strtok it) c)
  end.

(** ** Words of the specification *)

(** The operator vocabulary of the specification, section 4.1. *)
Definition operator_vocabulary : list (string * RbtCommands) :=
  [("+", ADD); ("-", SUB); ("*", MUL); ("/", DIV);
   ("if", IF); ("log", LOG); ("exp", EXP); ("and", AND)].

Definition operator_of (s : string) : option RbtCommands :=
  snd <$> List.find (λ wo, String.eqb s wo.1) operator_vocabulary.

(** [pat] occurs in [s] as a substring. *)
Definition contains (s pat : string) : Prop :=
  ∃ pre post, s = pre +:+ pat +:+ post.

(** The word names a scored quantity. *)
Definition scored (s : string) : Prop :=
  contains s "SCORE" ∨ contains s "SITE" ∨ contains s "LIG".

(** The address [Assign] gives to [key]: the one it has, or the next free
    one. *)
Definition slot (c : RbtContext) (key : string) : nat :=
  default (length (cells c)) (vm c !! key).

(** The two statements [contextp->Assign(s, val); return new
    RbtToken(contextp->GetVble(s));] of [translate]. *)
Definition declare (c : RbtContext) (s : string) (val : RbtDouble)
  : (RbtError + RbtToken) * RbtContext :=
  let c1 := Assign c s val in
  let '(c2, v) := GetVble c1 s in
  (inr (VariableRef v), c2).

(** A sequence of calls on the iterator. *)
Inductive call : Type :=
| CallCurrent
| CallNext (co : RbtContextPtr).

Definition step (it : RbtStringTokenIter) (k : call) : RbtStringTokenIter :=
  match k with
  | CallCurrent => (Current it).2
  | CallNext co => Next it co
  end.

Definition run (ks : list call) (it : RbtStringTokenIter) : RbtStringTokenIter :=
  foldl step it ks.

(** The word in the buffer if [Current] classifies it as a variable or a
    literal. *)
Definition name_seen (it : RbtStringTokenIter) (k : call) : list string :=
  match k, (Current it).1 with
  | CallCurrent, inr (VariableRef _) => [strtok it]
  | _, _ => []
  end.

(** The names and literals seen by [Current] along a sequence of calls. *)
Fixpoint names_seen (ks : list call) (it : RbtStringTokenIter) : list string :=
  match ks with
  | [] => []
  | k :: ks' => name_seen it k ++ names_seen ks' (step it k)
  end.

(** Every character of [s] satisfies [p]. *)
Fixpoint string_forallb (p : ascii → bool) (s : string) : bool :=
  match s with
  | String a r => p a && string_forallb p r
  | EmptyString => true
  end.

(** A white-space delimited word: not empty, no white space in it. *)
Definition is_word (w : string) : Prop :=
  w ≠ EmptyString ∧ string_forallb (λ a, negb (CType.isspace a)) w = true.

(** The text ends here or goes on with white space. *)
Definition delimited (rest : string) : Prop :=
  match rest with
  | String a _ => CType.isspace a = true
  | EmptyString => True
  end.

(** The number one, [0x3FF0000000000000]. *)
Definition one : RbtDouble := S754_finite false 4503599627370496 (-52).

(** The shapes of the result of [translate]: a variable, after one
    [Assign] of the word; an operator or an error, the context as it
    was. *)
Inductive translated (c : RbtContext) (s : string)
  : (RbtError + RbtToken) * RbtContext → Prop :=
| translated_vble x :
    translated c s (inr (VariableRef (slot c s)), Assign c s x)
| translated_operator op : translated c s (inr (Operator op), c)
| translated_error e : translated c s (inl e, c).

#[global] Instance context_ok_dec (c : RbtContext) : Decision (context_ok c) :=
  ltac:(unfold context_ok; exact _).

(** ** Scenarios *)

Definition scenario_D : RbtStringTokenIter :=
  construct (istream_of "3.14 LOG") empty_context.

Definition scenario_D_lower : RbtStringTokenIter :=
  construct (istream_of "3.14 log") empty_context.

(** The binary64 number nearest to 3.14, [0x40091EB851EB851F]. *)
Definition double_3_14 : RbtDouble := S754_finite false 7070651414971679 (-51).

(** The context after classifying [SCORE] once from the empty context and
    then assigning it the value one, as the docking engine does between
    evaluations. *)
Definition scored_assigned : RbtContext :=
  Assign (translate empty_context "SCORE").2 "SCORE" one.

(** What C1 says of a word that is in the context: classifying it again
    returns its slot, holding the value it had. *)
Definition keeps_assigned_value (c : RbtContext) (s : string) : Prop :=
  ∃ p c', vm c !! s = Some p ∧
          translate c s = (inr (VariableRef p), c') ∧
          GetValue <$> deref c' p = GetValue <$> deref c p.

(** The word made of the single character NUL. *)
Definition nul_word : string := String Ascii.zero EmptyString.

(** The word is a floating-point literal from its first to its last
    character, and converts without range error. *)
Definition parses_in_full (s : string) : Prop :=
  ∃ l, read_literal s = Some (l, EmptyString) ∧ (round_literal l).2 = 0%Z.

(** ** A caller's loop *)

(** [Current] then [Next], [n] times: the results of [Current] in order
    and the iterator left. *)
Fixpoint tokens (n : nat) (it : RbtStringTokenIter) (co : RbtContextPtr)
  : list (RbtError + RbtToken) * RbtStringTokenIter :=
  match n with
  | O => ([], it)
  | S n' =>
      let '(r, it1) := Current it in
      let '(rs, it2) := tokens n' (Next it1 co) co in
      (r :: rs, it2)
  end.

(** [translate] on the words of a list in order, on one context. *)
Fixpoint translate_all (c : RbtContext) (ws : list string)
  : list (RbtError + RbtToken) * RbtContext :=
  match ws with
  | [] => ([], c)
  | w :: ws' =>
      let '(r, c1) := translate c w in
      let '(rs, c2) := translate_all c1 ws' in
      (r :: rs, c2)
  end.

(** A text: for each pair white space and a word, then [trailer]. *)
Fixpoint words_text (l : list (string * string)) (trailer : string) : string :=
  match l with
  | [] => trailer
  | sw :: l' => sw.1 +:+ sw.2 +:+ words_text l' trailer
  end.

Definition all_space (s : string) : Prop :=
  string_forallb CType.isspace s = true.

(** Each word of the list is a word and has white space before it. *)
Definition separated (l : list (string * string)) : Prop :=
  Forall (λ sw, sw.1 ≠ EmptyString ∧ all_space sw.1 ∧ is_word sw.2) l.

(** The stream has no word to give: it is not good, or holds nothing but
    white space. *)
Definition no_word_left (f : istream) : Prop :=
  good f = false ∨ skip_spaces (is_buf f) = EmptyString.

(** What the stream is like between two words of a text. *)
Definition stream_at (f : istream) (l : list (string * string)) (trailer : string) : Prop :=
  is_buf f = words_text l trailer ∧ is_fail f = false ∧
  (is_eof f = true → is_buf f = EmptyString).

(** ** Iterator objects in a heap

    The copy constructor and [copy] copy the smart pointers [filep] and
    [contextp], not the stream and the context: a copy shares both with
    the object it was made from.  Here the stream and the context live in
    a heap and an iterator object holds their addresses.  A call on an
    object whose pointer is not in the heap has no result. *)

Module Shared.

Record Heap : Type := mkHeap {
  streams : gmap nat istream;
  contexts : gmap nat RbtContext
}.

Record Iter : Type := mkShared {
  s_current : option RbtToken;
  s_filep : nat;
  s_strtok : string;
  s_contextp : nat
}.

(** [RbtStringTokenIter(const RbtStringTokenIter& ti)]. *)
Definition copy_construct (ti : Iter) : Iter :=
  mkShared (s_current ti) (s_filep ti) (s_strtok ti) (s_contextp ti).

(** [copy(ti)]: the four members are assigned from [ti]. *)
Definition copy (self ti : Iter) : Iter :=
  let self1 := mkShared (s_current self) (s_filep self) (s_strtok ti) (s_contextp self) in
  let self2 := mkShared (s_current ti) (s_filep self1) (s_strtok self1) (s_contextp self1) in
  let self3 := mkShared (s_current self2) (s_filep ti) (s_strtok self2) (s_contextp self2) in
  mkShared (s_current self3) (s_filep self3) (s_strtok self3) (s_contextp ti).

(** [Next]: the extraction from the stream [filep] points to. *)
Definition Next (h : Heap) (o : Iter) (_ : nat) : option (Heap * Iter) :=
  match streams h !! s_filep o with
  | Some f =>
      let '(f', w) := extract f (s_strtok o) in
      Some (mkHeap (<[s_filep o := f']> (streams h)) (contexts h),
            mkShared (s_current o) (s_filep o) w (s_contextp o))
  | None => None
  end.

(** [Current]: [translate] works on the context [contextp] points to. *)
Definition Current (h : Heap) (o : Iter)
  : option ((RbtError + RbtToken) * Heap * Iter) :=
  match contexts h !! s_contextp o with
  | Some c =>
      match translate c (s_strtok o) with
      | (inr t, c') =>
          Some (inr t, mkHeap (streams h) (<[s_contextp o := c']> (contexts h)),
                mkShared (Some t) (s_filep o) (s_strtok o) (s_contextp o))
      | (inl e, c') =>
          Some (inl e, mkHeap (streams h) (<[s_contextp o := c']> (contexts h)), o)
      end
  | None => None
  end.

(** The iterator an object stands for: its pointers followed. *)
Definition load (h : Heap) (o : Iter) : option RbtStringTokenIter :=
  match streams h !! s_filep o, contexts h !! s_contextp o with
  | Some f, Some c => Some (mkIter (s_current o) f (s_strtok o) c)
  | _, _ => None
  end.

End Shared.

(** Scenario D in the heap: one stream, one context, one object. *)
Definition shared_heap_D : Shared.Heap :=
  Shared.mkHeap {[ 0 := IStream " LOG" false false ]} {[ 0 := empty_context ]}.

Definition shared_iter_D : Shared.Iter := Shared.mkShared None 0 "3.14" 0.

(** ** [RbtCharmmDataSource] ([src/lib/RbtCharmmDataSource.cxx])

    The data source is built from the list of types read from the masses
    file and from the element table; both files are read by classes that
    are not part of these sources, so the constructor takes what they
    deliver: the list [GetTypeList()] returns and the function
    [GetElementData].  [RbtInt] is [Z]; no arithmetic is done on it. *)

Module Charmm.

(** The values of [RbtAtom::eHybridState] that the code names. *)
Inductive eHybridState : Type := UNDEFINED | SP | SP2 | SP3 | AROM | TRI.

(** An exception: [RbtFileMissingParameter], or another [RbtError]. *)
Inductive exn : Type :=
| RbtFileMissingParameter (message : string)
| Thrown (e : RbtError).

(** The members of [RbtCharmmType] that the constructor reads. *)
Record RbtCharmmType : Type := mkCharmmType {
  nAtomType : Z;
  strAtomType : string;
  element : string;
  comment : string
}.

(** The member of [RbtElementData] that the constructor reads. *)
Record RbtElementData : Type := mkElementData {
  atomicNo : Z
}.

(** The element table, by what it answers. *)
Record RbtElementFileSource : Type := mkElementFileSource {
  GetElementData : string → exn + RbtElementData
}.

Record RbtCharmmDataSource : Type := mkDataSource {
  m_atomTypes : gmap Z string;
  m_atomicNumber : gmap string Z;
  m_hybridState : gmap string eHybridState;
  m_implicitHydrogens : gmap string Z;
  m_formalCharge : gmap string Z
}.

Definition ConvertCommentStringToHybridState (strComment : string) : eHybridState :=
  if found (find strComment "(RBT::SP)") then SP
  else if found (find strComment "(RBT::SP2)") then SP2
  else if found (find strComment "(RBT::SP3)") then SP3
  else if found (find strComment "(RBT::AROM)") then AROM
  else if found (find strComment "(RBT::TRI)") then TRI
  else UNDEFINED.

(** One turn of the constructor's loop. *)
Definition add_type (spElementData : RbtElementFileSource)
    (ds : RbtCharmmDataSource) (t : RbtCharmmType) : exn + RbtCharmmDataSource :=
  let atomTypes := <[nAtomType t := strAtomType t]> (m_atomTypes ds) in
  match GetElementData spElementData (element t) with
  | inl e => inl e
  | inr elData =>
      inr (mkDataSource atomTypes
             (<[strAtomType t := atomicNo elData]> (m_atomicNumber ds))
             (<[strAtomType t := ConvertCommentStringToHybridState (comment t)]>
                (m_hybridState ds))
             (m_implicitHydrogens ds) (m_formalCharge ds))
  end.

Fixpoint add_types (spElementData : RbtElementFileSource)
    (ds : RbtCharmmDataSource) (typeList : list RbtCharmmType)
  : exn + RbtCharmmDataSource :=
  match typeList with
  | [] => inr ds
  | t :: l =>
      match add_type spElementData ds t with
      | inl e => inl e
      | inr ds' => add_types spElementData ds' l
      end
  end.

(** The constructor; an exception of [GetElementData] leaves no object. *)
Definition construct (spElementData : RbtElementFileSource)
    (typeList : list RbtCharmmType) : exn + RbtCharmmDataSource :=
  match add_types spElementData (mkDataSource ∅ ∅ ∅ ∅ ∅) typeList with
  | inl e => inl e
  | inr ds =>
      inr (mkDataSource (m_atomTypes ds) (m_atomicNumber ds) (m_hybridState ds)
             (<["NH2E" := 2%Z]> (<["SH1E" := 1%Z]> (<["C6RE" := 1%Z]>
              (<["C5RE" := 1%Z]> (<["CH3E" := 3%Z]> (<["CH2E" := 2%Z]>
              (<["CH1E" := 1%Z]> (m_implicitHydrogens ds))))))))
             (<["NC" := 1%Z]> (<["HC" := 1%Z]> (<["OC" := (-1)%Z]>
              (m_formalCharge ds)))))
  end.

(** The string the stream holds after [<< ends]: a NUL character is
    appended. *)
Definition ends : string := String Ascii.zero EmptyString.

Definition AtomTypeString (ds : RbtCharmmDataSource) (nAtomType : Z) : exn + string :=
  match m_atomTypes ds !! nAtomType with
  | Some s => inr s
  | None =>
      inl (RbtFileMissingParameter
             ("CHARMm atom type #" +:+ pretty nAtomType +:+
              " not found in CharmmDataSource" +:+ ends))
  end.

Definition ImplicitHydrogens (ds : RbtCharmmDataSource) (strFFType : string) : exn + Z :=
  match m_implicitHydrogens ds !! strFFType with
  | Some n => inr n
  | None => inr 0%Z
  end.

Definition not_found (strFFType : string) : exn :=
  RbtFileMissingParameter
    ("CHARMm atom type " +:+ strFFType +:+ " not found in CharmmDataSource").

Definition AtomicNumber (ds : RbtCharmmDataSource) (strFFType : string) : exn + Z :=
  match m_atomicNumber ds !! strFFType with
  | Some n => inr n
  | None => inl (not_found strFFType)
  end.

Definition FormalCharge (ds : RbtCharmmDataSource) (strFFType : string) : exn + Z :=
  match m_formalCharge ds !! strFFType with
  | Some n => inr n
  | None => inr 0%Z
  end.

Definition HybridState (ds : RbtCharmmDataSource) (strFFType : string) : exn + eHybridState :=
  match m_hybridState ds !! strFFType with
  | Some h => inr h
  | None => inl (not_found strFFType)
  end.

(** The last element of a list that satisfies [p]. *)
Fixpoint last_where {A : Type} (p : A → bool) (l : list A) : option A :=
  match l with
  | [] => None
  | x :: l' =>
      match last_where p l' with
      | Some y => Some y
      | None => if p x then Some x else None
      end
  end.

(** The last type of the list with the number [n], with the name [s]. *)
Definition last_numbered (n : Z) (l : list RbtCharmmType) : option RbtCharmmType :=
  last_where (λ t, (nAtomType t =? n)%Z) l.

Definition last_named (s : string) (l : list RbtCharmmType) : option RbtCharmmType :=
  last_where (λ t, String.eqb (strAtomType t) s) l.

(** The element table knows the element of every type of the list. *)
Definition elements_known (spElementData : RbtElementFileSource)
    (l : list RbtCharmmType) : Prop :=
  Forall (λ t, ∃ d, GetElementData spElementData (element t) = inr d) l.

(** A small element table and masses list, for examples. *)
Definition elements_CHON : RbtElementFileSource :=
  mkElementFileSource (λ name,
    if String.eqb name "C" then inr (mkElementData 6)
    else if String.eqb name "H" then inr (mkElementData 1)
    else if String.eqb name "O" then inr (mkElementData 8)
    else if String.eqb name "N" then inr (mkElementData 7)
    else inl (RbtFileMissingParameter ("Element " +:+ name +:+ " not found"))).

Definition masses_example : list RbtCharmmType :=
  [ mkCharmmType 1 "H" "H" "polar H (RBT::UNDEFINED)";
    mkCharmmType 11 "C" "C" "carbonyl C (RBT::SP2)";
    mkCharmmType 13 "CH2E" "C" "extended atom C with 2 H (RBT::SP3)";
    mkCharmmType 52 "OC" "O" "carboxylate O (RBT::TRI)";
    mkCharmmType 11 "CR" "C" "aromatic C (RBT::AROM)" ].

(** The data source built from them. *)
Definition source_example : RbtCharmmDataSource :=
  match construct elements_CHON masses_example with
  | inr ds => ds
  | inl _ => mkDataSource ∅ ∅ ∅ ∅ ∅
  end.

End Charmm.

(** ** [RbtBaseBiMolTransform] ([src/lib/RbtBaseBiMolTransform.cxx])

    A model pointer is an address, or null.  The work space is taken by
    what it answers to the three calls [Update] makes on it, and by its
    own address, which is what [Update] compares the changed subject
    with.  The four [Setup] functions are virtual and defined in the
    classes derived from this one: [Update] is modelled with the list of
    the [Setup] calls it makes, in order, each call being taken to return
    and to leave the three members of the base class alone. *)

Module BiMol.

Definition RbtModelPtr : Type := option nat.
Definition RbtModelList : Type := list RbtModelPtr.

Record RbtWorkSpace : Type := mkWorkSpace {
  address : nat;
  GetNumModels : Z;
  GetModel : Z → RbtModelPtr;
  GetModels : Z → RbtModelList
}.

Inductive setup : Type :=
| SetupReceptor | SetupLigand | SetupSolvent | SetupTransform.

Record RbtBaseBiMolTransform : Type := mkTransform {
  m_spReceptor : RbtModelPtr;
  m_spLigand : RbtModelPtr;
  m_solventList : RbtModelList
}.

Definition GetReceptor (self : RbtBaseBiMolTransform) : RbtModelPtr := m_spReceptor self.
Definition GetLigand (self : RbtBaseBiMolTransform) : RbtModelPtr := m_spLigand self.
Definition GetSolvent (self : RbtBaseBiMolTransform) : RbtModelList := m_solventList self.

(** The receptor part of [Update]: model 0. *)
Definition update_receptor (pWorkSpace : RbtWorkSpace) (numModels : Z)
    (self : RbtBaseBiMolTransform) : RbtBaseBiMolTransform * list setup :=
  if (1 <=? numModels)%Z then
    let spReceptor := GetModel pWorkSpace 0 in
    if decide (spReceptor ≠ m_spReceptor self) then
      (mkTransform spReceptor (m_spLigand self) (m_solventList self), [SetupReceptor])
    else (self, [])
  else (self, []).

(** The ligand part: model 1. *)
Definition update_ligand (pWorkSpace : RbtWorkSpace) (numModels : Z)
    (self : RbtBaseBiMolTransform) : RbtBaseBiMolTransform * list setup :=
  if (2 <=? numModels)%Z then
    let spLigand := GetModel pWorkSpace 1 in
    if decide (spLigand ≠ m_spLigand self) then
      (mkTransform (m_spReceptor self) spLigand (m_solventList self), [SetupLigand])
    else (self, [])
  else (self, []).

(** The solvent of the work space as [Update] takes it: models 2
    onwards, none when there are fewer than three models. *)
Definition solvent_of (pWorkSpace : RbtWorkSpace) (numModels : Z) : RbtModelList :=
  if (3 <=? numModels)%Z then GetModels pWorkSpace 2 else [].

(** The solvent part: only the sizes of the lists are compared. *)
Definition update_solvent (pWorkSpace : RbtWorkSpace) (numModels : Z)
    (self : RbtBaseBiMolTransform) : RbtBaseBiMolTransform * list setup :=
  let solventList := solvent_of pWorkSpace numModels in
  if decide (length solventList ≠ length (m_solventList self)) then
    (mkTransform (m_spReceptor self) (m_spLigand self) solventList, [SetupSolvent])
  else (self, []).

(** [Update(theChangedSubject)], for a transform registered with
    [pWorkSpace]. *)
Definition Update (pWorkSpace : RbtWorkSpace) (self : RbtBaseBiMolTransform)
    (theChangedSubject : nat) : RbtBaseBiMolTransform * list setup :=
  if decide (theChangedSubject = address pWorkSpace) then
    let numModels := GetNumModels pWorkSpace in
    let '(self1, calls1) := update_receptor pWorkSpace numModels self in
    let '(self2, calls2) := update_ligand pWorkSpace numModels self1 in
    let '(self3, calls3) := update_solvent pWorkSpace numModels self2 in
    (self3, calls1 ++ calls2 ++ calls3 ++ [SetupTransform])
  else (self, []).

(** A work space with a receptor, a ligand and two solvent models. *)
Definition workspace_example : RbtWorkSpace :=
  mkWorkSpace 7 4
    (λ i, if (i =? 0)%Z then Some 10 else if (i =? 1)%Z then Some 11
          else if (i =? 2)%Z then Some 12 else Some 13)
    (λ i, [Some 12; Some 13]).

(** The same with other solvent models, as many. *)
Definition workspace_example' : RbtWorkSpace :=
  mkWorkSpace 7 4
    (λ i, if (i =? 0)%Z then Some 10 else if (i =? 1)%Z then Some 11
          else if (i =? 2)%Z then Some 22 else Some 23)
    (λ i, [Some 22; Some 23]).

Definition transform_new : RbtBaseBiMolTransform := mkTransform None None [].

End BiMol.

(** * Properties *)

(** ** Strings *)

Section StringFacts.

Lemma append_cons (a : ascii) (s t : string) :
  String a s +:+ t = String a (s +:+ t).
Proof. reflexivity. Qed.

Lemma append_nil_l (t : string) : EmptyString +:+ t = t.
Proof. reflexivity. Qed.

Lemma prefix_true_iff (p s : string) :
  String.prefix p s = true ↔ ∃ post, s = p +:+ post.
Proof.
  revert s. induction p as [|a p IH]; intros s; simpl.
  - split; [intros _; by exists s | by destruct s].
  - destruct s as [|b s].
    + split; [discriminate | intros [post H]; discriminate].
    + simpl. destruct (ascii_dec a b) as [->|Hne].
      * rewrite IH. split; intros [post H]; exists post;
          rewrite ?append_cons in *; congruence.
      * split; [discriminate | intros [post H]].
        rewrite append_cons in H. congruence.
Qed.

Lemma index_0_cons (pat : string) (b : ascii) (s : string) :
  String.index 0 pat (String b s) =
  if String.prefix pat (String b s) then Some 0%nat
  else S <$> String.index 0 pat s.
Proof. simpl. by destruct (String.index 0 pat s). Qed.

Lemma found_find_iff (s pat : string) :
  pat ≠ EmptyString → found (find s pat) = true ↔ contains s pat.
Proof.
  intros Hpat. unfold find, contains.
  induction s as [|b s IH].
  - destruct pat as [|a pat]; [done|]. simpl. split; [discriminate|].
    intros (pre & post & H). destruct pre; discriminate.
  - rewrite index_0_cons.
    destruct (String.prefix pat (String b s)) eqn:Hp.
    + split; [intros _ | reflexivity].
      apply prefix_true_iff in Hp as [post ->]. by exists EmptyString, post.
    + destruct (String.index 0 pat s) as [n|] eqn:Hi.
      * split; [intros _ | reflexivity].
        destruct (proj1 IH eq_refl) as (pre & post & ->).
        by exists (String b pre), post.
      * split; [discriminate|]. intros (pre & post & H).
        destruct pre as [|a pre];
          [rewrite append_nil_l in H | rewrite append_cons in H].
        -- assert (String.prefix pat (String b s) = true) as Hp'
             by (apply prefix_true_iff; by exists post).
           congruence.
        -- injection H as -> ->. apply IH. by exists pre, post.
Qed.

Lemma not_contains_find (s pat : string) :
  pat ≠ EmptyString → ¬ contains s pat → found (find s pat) = false.
Proof.
  intros Hpat Hn. destruct (found (find s pat)) eqn:H; [|reflexivity].
  by apply found_find_iff in H.
Qed.

Lemma scored_found (s : string) :
  scored s →
  found (find s "SCORE") || found (find s "SITE") || found (find s "LIG") = true.
Proof.
  intros [H|[H|H]]; apply found_find_iff in H; try done; rewrite H;
    rewrite ?orb_true_r; reflexivity.
Qed.

Lemma not_scored_found (s : string) :
  ¬ scored s →
  found (find s "SCORE") || found (find s "SITE") || found (find s "LIG") = false.
Proof.
  intros H. rewrite !not_contains_find; [reflexivity | done | | done | | done | ];
    intros Hc; apply H; unfold scored; tauto.
Qed.

Lemma length_zero_iff (s : string) : (String.length s =? 0)%nat = true ↔ s = EmptyString.
Proof. destruct s; simpl; split; congruence. Qed.

Lemma scored_nonempty (s : string) : scored s → s ≠ EmptyString.
Proof.
  intros [H|[H|H]] ->; destruct H as (pre & post & H);
    destruct pre; discriminate.
Qed.

Lemma not_scored_intro (s : string) :
  found (find s "SCORE") || found (find s "SITE") || found (find s "LIG") = false →
  ¬ scored s.
Proof. intros H Hs. apply scored_found in Hs. congruence. Qed.

End StringFacts.

(** ** The context *)

Section ContextFacts.

Implicit Types (c : RbtContext) (key : string) (val : RbtDouble).

Lemma context_ok_empty : context_ok empty_context.
Proof. apply map_Forall_empty. Qed.

Lemma name_alter_SetValue val (p q : nat) (l : list RbtVble) :
  GetName <$> alter (SetValue val) p l !! q = GetName <$> l !! q.
Proof.
  destruct (decide (p = q)) as [->|Hne].
  - rewrite list_lookup_alter_eq. by destruct (l !! q).
  - by rewrite list_lookup_alter_ne.
Qed.

Lemma Assign_present c key val p :
  vm c !! key = Some p →
  Assign c key val = mkRbtContext (vm c) (alter (SetValue val) p (cells c)).
Proof. intros H. unfold Assign. by rewrite H. Qed.

Lemma Assign_absent c key val :
  vm c !! key = None → Assign c key val = new_vble c key val.
Proof. intros H. unfold Assign. by rewrite H. Qed.

Lemma Assign_vm_lookup c key val :
  vm (Assign c key val) !! key = Some (slot c key).
Proof.
  unfold Assign, slot. destruct (vm c !! key) as [p|] eqn:H; simpl; [done|].
  apply lookup_insert_eq.
Qed.

Lemma Assign_vm_lookup_ne c key val key' :
  key ≠ key' → vm (Assign c key val) !! key' = vm c !! key'.
Proof.
  intros Hne. unfold Assign. destruct (vm c !! key); simpl; [done|].
  by apply lookup_insert_ne.
Qed.

Lemma Assign_vm_subseteq c key val : vm c ⊆ vm (Assign c key val).
Proof.
  unfold Assign. destruct (vm c !! key) eqn:H; simpl; [done|].
  by apply insert_subseteq.
Qed.

Lemma Assign_dom c key val :
  dom (vm (Assign c key val)) = {[key]} ∪ dom (vm c).
Proof.
  unfold Assign. destruct (vm c !! key) as [p|] eqn:H; simpl.
  - symmetry. apply subseteq_union_1_L, singleton_subseteq_l, elem_of_dom. eauto.
  - apply dom_insert_L.
Qed.

Lemma Assign_size_absent c key val :
  vm c !! key = None → size (vm (Assign c key val)) = S (size (vm c)).
Proof.
  intros H. rewrite Assign_absent by done. by apply map_size_insert_None.
Qed.

Lemma Assign_size_le c key val :
  size (vm (Assign c key val)) ≤ S (size (vm c)).
Proof.
  destruct (vm c !! key) as [p|] eqn:H.
  - rewrite (Assign_present _ _ _ p) by done. simpl. lia.
  - rewrite Assign_size_absent by done. lia.
Qed.

Lemma Assign_cells_length c key val :
  length (cells c) ≤ length (cells (Assign c key val)).
Proof.
  unfold Assign. destruct (vm c !! key); simpl.
  - by rewrite length_alter.
  - rewrite length_app. lia.
Qed.

Lemma Assign_cells_name c key val (q : nat) (v : RbtVble) :
  cells c !! q = Some v →
  GetName <$> cells (Assign c key val) !! q = Some (GetName v).
Proof.
  intros Hq. unfold Assign. destruct (vm c !! key); simpl.
  - by rewrite name_alter_SetValue, Hq.
  - by rewrite (lookup_app_l_Some _ _ _ _ Hq).
Qed.

Lemma Assign_cells_other c key val (q : nat) :
  q ≠ slot c key → q < length (cells c) →
  cells (Assign c key val) !! q = cells c !! q.
Proof.
  intros Hne Hlt. unfold Assign, slot in *.
  destruct (vm c !! key) as [p|]; simpl in *.
  - by rewrite list_lookup_alter_ne.
  - by rewrite lookup_app_l.
Qed.

Lemma context_ok_Assign c key val : context_ok c → context_ok (Assign c key val).
Proof.
  unfold context_ok. intros Hok.
  destruct (vm c !! key) as [p|] eqn:H.
  - rewrite (Assign_present _ _ _ p) by done. simpl.
    intros k q Hk. rewrite name_alter_SetValue. by apply Hok.
  - rewrite Assign_absent by done. unfold new_vble; simpl.
    apply map_Forall_insert; [done|]. split.
    + by rewrite list_lookup_middle.
    + intros k q Hk. specialize (Hok k q Hk). simpl in Hok.
      destruct (cells c !! q) as [v|] eqn:Hq; [|done].
      by rewrite (lookup_app_l_Some _ _ _ _ Hq).
Qed.

Lemma Assign_deref c key val :
  context_ok c →
  deref (Assign c key val) (slot c key) = Some (mkRbtVble key val).
Proof.
  intros Hok. unfold deref, Assign, slot.
  destruct (vm c !! key) as [p|] eqn:H; simpl.
  - specialize (Hok key p H). simpl in Hok. rewrite list_lookup_alter_eq.
    destruct (cells c !! p) as [[n v]|]; simpl in *; [|done].
    by injection Hok as ->.
  - by rewrite list_lookup_middle.
Qed.

(** Assigning twice the same value is assigning once. *)
Lemma Assign_idemp c key val :
  Assign (Assign c key val) key val = Assign c key val.
Proof.
  rewrite (Assign_present (Assign c key val) key val (slot c key))
    by apply Assign_vm_lookup.
  unfold Assign, slot. destruct (vm c !! key) as [p|] eqn:H; simpl.
  - f_equal. rewrite list_alter_alter_eq. by apply list_alter_ext.
  - f_equal. rewrite alter_app_r_alt by done.
    by rewrite Nat.sub_diag.
Qed.

Lemma declare_eq c key val :
  declare c key val = (inr (VariableRef (slot c key)), Assign c key val).
Proof.
  unfold declare, GetVble. by rewrite Assign_vm_lookup.
Qed.

End ContextFacts.

(** ** [translate], branch by branch *)

Section TranslateFacts.

Implicit Types (c : RbtContext) (s : string).

(** The chain of comparisons of [translate] is a look-up in the
    operator vocabulary. *)
Lemma translate_cases c s :
  translate c s =
  if (String.length s =? 0)%nat then (inl EmptyToken, c)
  else match operator_of s with
       | Some op => (inr (Operator op), c)
       | None =>
           if found (find s "SCORE") || found (find s "SITE") || found (find s "LIG")
           then declare c s zero
           else
             let r := strtod (c_str s) in
             if (sr_errno r =? 0)%Z && (String.length (sr_endptr r) =? 0)%nat
             then declare c s (sr_value r)
             else (inl (UnrecognizedToken s), c)
       end.
Proof.
  unfold translate, operator_of, declare. simpl.
  repeat (destruct (String.eqb s _); [reflexivity|]). reflexivity.
Qed.

Lemma operator_of_words s op :
  operator_of s = Some op → (s, op) ∈ operator_vocabulary.
Proof.
  unfold operator_of. simpl.
  repeat match goal with
         | |- context [String.eqb s ?w] =>
             destruct (String.eqb_spec s w) as [->|_];
             [simpl; intros [= <-]; unfold operator_vocabulary;
              repeat (first [apply list_elem_of_here | apply list_elem_of_further])|]
         end.
  discriminate.
Qed.

Lemma operator_not_scored s op : operator_of s = Some op → ¬ scored s.
Proof.
  intros H Hs. apply scored_found in Hs. apply operator_of_words in H.
  unfold operator_vocabulary in H.
  repeat (apply elem_of_cons in H as [[= -> _]|H]; [vm_compute in Hs; discriminate|]).
  by apply elem_of_nil in H.
Qed.

Lemma translate_empty c : translate c EmptyString = (inl EmptyToken, c).
Proof. reflexivity. Qed.

Lemma translate_operator_eq c s op :
  operator_of s = Some op → translate c s = (inr (Operator op), c).
Proof.
  intros H. rewrite translate_cases, H.
  destruct s; [vm_compute in H; discriminate | reflexivity].
Qed.

Lemma translate_scored_eq c s :
  scored s → translate c s = (inr (VariableRef (slot c s)), Assign c s zero).
Proof.
  intros Hs. rewrite translate_cases.
  destruct (String.length s =? 0)%nat eqn:Hl.
  { apply length_zero_iff in Hl. by apply scored_nonempty in Hs. }
  destruct (operator_of s) as [op|] eqn:Hop.
  { by apply operator_not_scored in Hop. }
  rewrite scored_found by done. apply declare_eq.
Qed.

Lemma translate_number_eq c s x :
  s ≠ EmptyString → operator_of s = None → ¬ scored s →
  strtod (c_str s) = StrtodResult x EmptyString 0 →
  translate c s = (inr (VariableRef (slot c s)), Assign c s x).
Proof.
  intros Hne Hop Hs Hr. rewrite translate_cases, Hop, Hr.
  destruct (String.length s =? 0)%nat eqn:Hl.
  { by apply length_zero_iff in Hl. }
  rewrite not_scored_found by done. simpl. apply declare_eq.
Qed.

Lemma translate_unrecognized_eq c s :
  s ≠ EmptyString → operator_of s = None → ¬ scored s →
  sr_errno (strtod (c_str s)) ≠ 0%Z ∨ sr_endptr (strtod (c_str s)) ≠ EmptyString →
  translate c s = (inl (UnrecognizedToken s), c).
Proof.
  intros Hne Hop Hs Hr. rewrite translate_cases, Hop.
  destruct (String.length s =? 0)%nat eqn:Hl.
  { by apply length_zero_iff in Hl. }
  rewrite not_scored_found by done. cbv zeta.
  destruct Hr as [Hr|Hr].
  - apply Z.eqb_neq in Hr. by rewrite Hr.
  - destruct (String.length (sr_endptr (strtod (c_str s))) =? 0)%nat eqn:He.
    + by apply length_zero_iff in He.
    + by rewrite andb_false_r.
Qed.

(** What a successful [declare] leaves in the context. *)
Lemma declared_slot c s x :
  context_ok c →
  let p := slot c s in
  let c' := Assign c s x in
  vm c' !! s = Some p ∧
  deref c' p = Some (mkRbtVble s x) ∧
  context_ok c' ∧
  (vm c !! s = None → p = length (cells c) ∧ size (vm c') = S (size (vm c))) ∧
  (∀ q, vm c !! s = Some q →
        p = q ∧ vm c' = vm c ∧ length (cells c') = length (cells c)).
Proof.
  intros Hok p c'. subst p c'. split; [apply Assign_vm_lookup|].
  split; [by apply Assign_deref|]. split; [by apply context_ok_Assign|].
  split.
  - intros H. split; [unfold slot; by rewrite H | by apply Assign_size_absent].
  - intros q H. rewrite (Assign_present _ _ _ q) by done. simpl.
    split; [unfold slot; by rewrite H|]. split; [done | apply length_alter].
Qed.

End TranslateFacts.

(** ** The stream and the iterator *)

Section IteratorFacts.

Implicit Types (it : RbtStringTokenIter) (c : RbtContext) (s : string).

Lemma skip_spaces_app (ws x : string) :
  string_forallb CType.isspace ws = true →
  skip_spaces (ws +:+ x) = skip_spaces x.
Proof.
  induction ws as [|a ws IH]; [done|].
  rewrite append_cons. simpl. intros [Ha Hws]%andb_true_iff.
  rewrite Ha. by apply IH.
Qed.

Lemma read_word_app (w rest : string) :
  string_forallb (λ a, negb (CType.isspace a)) w = true →
  delimited rest → read_word (w +:+ rest) = (w, rest).
Proof.
  intros Hw Hrest. induction w as [|a w IH].
  - rewrite append_nil_l. destruct rest as [|b rest]; [done|].
    simpl in *. by rewrite Hrest.
  - rewrite append_cons. simpl in *.
    apply andb_true_iff in Hw as [Ha Hw]. apply negb_true_iff in Ha.
    rewrite Ha. by rewrite (IH Hw).
Qed.

(** Extraction from a good stream that holds a next word. *)
Lemma extract_word (f : istream) (str ws w rest : string) :
  good f = true → is_buf f = ws +:+ w +:+ rest →
  string_forallb CType.isspace ws = true → is_word w → delimited rest →
  extract f str =
  (IStream rest (match rest with EmptyString => true | _ => false end) false, w).
Proof.
  intros Hg Hb Hws [Hne Hw] Hrest. unfold extract. rewrite Hg, Hb.
  rewrite skip_spaces_app by done.
  destruct w as [|a w]; [done|]. rewrite append_cons.
  pose proof Hw as Hw'. simpl in Hw'.
  apply andb_true_iff in Hw' as [Ha _]. apply negb_true_iff in Ha.
  cbn [skip_spaces]. rewrite Ha. rewrite <- append_cons.
  by rewrite (read_word_app _ _ Hw Hrest).
Qed.

(** Extraction when there is no word left: the string is not touched. *)
Lemma extract_nothing (f : istream) (str : string) :
  good f = false ∨ skip_spaces (is_buf f) = EmptyString →
  (extract f str).2 = str.
Proof.
  intros H. unfold extract. destruct (good f); [|done].
  destruct H as [H|H]; [done|]. by rewrite H.
Qed.

Lemma slot_Assign c s x : slot (Assign c s x) s = slot c s.
Proof. unfold slot at 1. by rewrite Assign_vm_lookup. Qed.

Lemma declare_twice c s x :
  declare (declare c s x).2 s x = declare c s x.
Proof. rewrite !declare_eq. simpl. by rewrite slot_Assign, Assign_idemp. Qed.

(** Classifying a word again gives the same result and leaves the
    context as the first classification left it. *)
Lemma translate_twice c s :
  translate (translate c s).2 s = translate c s.
Proof.
  rewrite !translate_cases.
  destruct (String.length s =? 0)%nat; [done|].
  destruct (operator_of s); [done|].
  destruct (found (find s "SCORE") || found (find s "SITE") || found (find s "LIG")).
  { apply declare_twice. }
  cbv zeta.
  destruct ((sr_errno (strtod (c_str s)) =? 0)%Z
            && (String.length (sr_endptr (strtod (c_str s))) =? 0)%nat);
    [apply declare_twice | done].
Qed.

Lemma Current_context it :
  contextp (Current it).2 = (translate (contextp it) (strtok it)).2.
Proof.
  unfold Current. by destruct (translate (contextp it) (strtok it)) as [[e|t] c'].
Qed.

Lemma Current_result it :
  (Current it).1 = (translate (contextp it) (strtok it)).1.
Proof.
  unfold Current. by destruct (translate (contextp it) (strtok it)) as [[e|t] c'].
Qed.

Lemma translate_translated c s : translated c s (translate c s).
Proof.
  rewrite translate_cases.
  destruct (String.length s =? 0)%nat; [constructor|].
  destruct (operator_of s); [constructor|].
  destruct (found (find s "SCORE") || found (find s "SITE") || found (find s "LIG")).
  { rewrite declare_eq. constructor. }
  cbv zeta.
  destruct ((sr_errno (strtod (c_str s)) =? 0)%Z
            && (String.length (sr_endptr (strtod (c_str s))) =? 0)%nat);
    [rewrite declare_eq|]; constructor.
Qed.

Lemma names_Assign c s x :
  GetName <$> cells c `prefix_of` GetName <$> cells (Assign c s x).
Proof.
  unfold Assign. destruct (vm c !! s) as [p|]; simpl.
  - rewrite (list_fmap_alter GetName (SetValue x) id); [|by apply Forall_true].
    by rewrite list_alter_id.
  - rewrite fmap_app. by apply prefix_app_r.
Qed.

(** One call: what it does to the context. *)
Lemma step_context it k :
  let c := contextp it in
  let c' := contextp (step it k) in
  vm c ⊆ vm c' ∧
  GetName <$> cells c `prefix_of` GetName <$> cells c' ∧
  dom (vm c') = dom (vm c) ∪ list_to_set (name_seen it k) ∧
  size (vm c') ≤ S (size (vm c)).
Proof.
  destruct k as [|co]; simpl.
  - unfold name_seen. rewrite Current_context, Current_result.
    destruct (translate_translated (contextp it) (strtok it));
      cbn [fst snd list_to_set]; rewrite !(right_id_L ∅ (∪)).
    + split; [apply Assign_vm_subseteq|]. split; [apply names_Assign|].
      split; [|apply Assign_size_le].
      rewrite Assign_dom. apply (comm_L (∪)).
    + eauto.
    + eauto.
  - unfold Next. destruct (extract (filep it) (strtok it)).
    cbn [contextp name_seen list_to_set]. rewrite (right_id_L ∅ (∪)). eauto.
Qed.

Lemma run_cons k ks it : run (k :: ks) it = run ks (step it k).
Proof. reflexivity. Qed.

Lemma run_context ks it :
  let c := contextp it in
  let c' := contextp (run ks it) in
  vm c ⊆ vm c' ∧
  GetName <$> cells c `prefix_of` GetName <$> cells c' ∧
  dom (vm c') = dom (vm c) ∪ list_to_set (names_seen ks it).
Proof.
  revert it. induction ks as [|k ks IH]; intros it; cbn [names_seen run foldl].
  - cbn [list_to_set]. rewrite (right_id_L ∅ (∪)). eauto.
  - destruct (step_context it k) as (Hs1 & Hs2 & Hs3 & _).
    destruct (IH (step it k)) as (H1 & H2 & H3). cbv zeta in *.
    split; [by etrans|]. split; [by etrans|].
    change (foldl step (step it k) ks) with (run ks (step it k)).
    rewrite H3, Hs3, list_to_set_app_L. by rewrite (assoc_L (∪)).
Qed.

End IteratorFacts.

(** * The claims *)

(** ** C1: scored-quantity names *)

(** C1, as stated, fails: [SCORE] holds one in [scored_assigned], and
    classifying [SCORE] again leaves 0.0 in its slot. *)
Lemma scored_keeps_value_counterexample :
  ¬ keeps_assigned_value scored_assigned "SCORE".
Proof.
  intros (p & c' & Hp & Ht & Hv).
  vm_compute in Hp. injection Hp as <-.
  vm_compute in Ht. injection Ht as <-.
  vm_compute in Hv. discriminate.
Qed.

(** C1, as amended.  In a context where every name owns its variable,
    for every word [s] containing [SCORE], [SITE] or [LIG] as a
    substring, [translate] returns a [VariableRef] to the slot
    of [s], which then holds the value 0.0: a slot newly created (one more
    entry) when [s] was not in the context, and the existing slot of [s]
    (no new entry, no new cell) when it was; the value of an existing
    slot is overwritten with 0.0.  Classifying [s] once more returns the
    same slot and leaves the context as it is. *)
Theorem translate_scored_variable (c : RbtContext) (s : string) :
  context_ok c → scored s →
  ∃ p c',
    translate c s = (inr (VariableRef p), c') ∧
    vm c' !! s = Some p ∧
    deref c' p = Some (mkRbtVble s zero) ∧
    context_ok c' ∧
    (vm c !! s = None → p = length (cells c) ∧ size (vm c') = S (size (vm c))) ∧
    (∀ q, vm c !! s = Some q →
          p = q ∧ vm c' = vm c ∧ length (cells c') = length (cells c)) ∧
    translate c' s = (inr (VariableRef p), c').
Proof.
  intros Hok Hs. exists (slot c s), (Assign c s zero).
  destruct (declared_slot c s zero Hok) as (H1 & H2 & H3 & H4 & H5).
  split; [by apply translate_scored_eq|].
  repeat (split; [done|]).
  rewrite translate_scored_eq by done. by rewrite slot_Assign, Assign_idemp.
Qed.

Lemma translate_scored_variable_witness :
  context_ok scored_assigned ∧ scored "SCORE" ∧
  ∃ p c',
    translate scored_assigned "SCORE" = (inr (VariableRef p), c') ∧
    vm c' !! "SCORE" = Some p ∧
    deref c' p = Some (mkRbtVble "SCORE" zero) ∧
    context_ok c' ∧
    (vm scored_assigned !! "SCORE" = None →
     p = length (cells scored_assigned) ∧
     size (vm c') = S (size (vm scored_assigned))) ∧
    (∀ q, vm scored_assigned !! "SCORE" = Some q →
          p = q ∧ vm c' = vm scored_assigned ∧
          length (cells c') = length (cells scored_assigned)) ∧
    translate c' "SCORE" = (inr (VariableRef p), c').
Proof.
  assert (H1 : context_ok scored_assigned) by (apply (bool_decide_unpack _); vm_compute; exact I).
  assert (H2 : scored "SCORE") by (left; by exists EmptyString, EmptyString).
  split; [exact H1|]. split; [exact H2|].
  exact (translate_scored_variable scored_assigned "SCORE" H1 H2).
Defined.

(** ** C2: scenario D *)

(** C2, as stated, fails: on the stream [3.14 LOG] the second word is not
    classified as the LOG operator. *)
Lemma scenario_D_LOG_counterexample :
  ¬ ((Current (Next (Current scenario_D).2 empty_context)).1 = inr (Operator LOG)).
Proof. vm_compute. discriminate. Qed.

(** C2, as amended.  On the stream [3.14 LOG] the first word gives a
    [VariableRef] to slot 0, the only entry of the context, keyed by the
    string [3.14] and holding the binary64 number nearest to 314/100; the
    second word, [LOG], fails with [UnrecognizedToken] and leaves the
    context as it was, because the operator keywords are compared in lower
    case.  On the stream [3.14 log] the second word gives the LOG
    operator. *)
Theorem scenario_D_tokens (co : RbtContextPtr) :
  of_ratio false 314 100 = double_3_14 ∧
  (let '(r1, it1) := Current scenario_D in
   let '(r2, it2) := Current (Next it1 co) in
   r1 = inr (VariableRef 0) ∧
   vm (contextp it1) = {["3.14" := 0]} ∧
   deref (contextp it1) 0 = Some (mkRbtVble "3.14" double_3_14) ∧
   strtok (Next it1 co) = "LOG" ∧
   r2 = inl (UnrecognizedToken "LOG") ∧
   contextp it2 = contextp it1) ∧
  (let '(r1, it1) := Current scenario_D_lower in
   let '(r2, it2) := Current (Next it1 co) in
   r1 = inr (VariableRef 0) ∧
   deref (contextp it1) 0 = Some (mkRbtVble "3.14" double_3_14) ∧
   r2 = inr (Operator LOG) ∧
   contextp it2 = contextp it1).
Proof. vm_compute. repeat split; reflexivity. Qed.

(** ** C3: the operator vocabulary *)

(** C3.  Each word of the operator vocabulary gives its [Operator] token,
    and the context that comes back is the context that went in. *)
Theorem translate_operator_vocabulary (c : RbtContext) :
  translate c "+" = (inr (Operator ADD), c) ∧
  translate c "-" = (inr (Operator SUB), c) ∧
  translate c "*" = (inr (Operator MUL), c) ∧
  translate c "/" = (inr (Operator DIV), c) ∧
  translate c "if" = (inr (Operator IF), c) ∧
  translate c "log" = (inr (Operator LOG), c) ∧
  translate c "exp" = (inr (Operator EXP), c) ∧
  translate c "and" = (inr (Operator AND), c) ∧
  Forall (λ wo, translate c wo.1 = (inr (Operator wo.2), c)) operator_vocabulary.
Proof.
  repeat split; try reflexivity.
  apply Forall_forall. intros [w op] Hin. apply translate_operator_eq.
  unfold operator_vocabulary in Hin.
  repeat (apply elem_of_cons in Hin as [[= -> ->]|Hin]; [reflexivity|]).
  by apply elem_of_nil in Hin.
Qed.

(** ** C4: numeric literals *)

(** C4.  In a context where every name owns its variable, a non-empty
    word that is no operator word, contains none of
    [SCORE], [SITE], [LIG], and that [strtod] consumes to its end without
    error, is entered in the context under its own text with the number
    [x] read: [translate] returns a [VariableRef] to the slot of the word,
    which holds [x]; the slot is new when the word was not in the context,
    and the one it had (overwritten, no new entry) when it was.
    Classifying the same text again returns the same slot and leaves the
    context as it is. *)
Theorem translate_literal (c : RbtContext) (s : string) (x : RbtDouble) :
  context_ok c → s ≠ EmptyString → operator_of s = None → ¬ scored s →
  strtod (c_str s) = StrtodResult x EmptyString 0 →
  ∃ p c',
    translate c s = (inr (VariableRef p), c') ∧
    vm c' !! s = Some p ∧
    deref c' p = Some (mkRbtVble s x) ∧
    context_ok c' ∧
    (vm c !! s = None → p = length (cells c) ∧ size (vm c') = S (size (vm c))) ∧
    (∀ q, vm c !! s = Some q →
          p = q ∧ vm c' = vm c ∧ length (cells c') = length (cells c)) ∧
    translate c' s = (inr (VariableRef p), c').
Proof.
  intros Hok Hne Hop Hs Hr. exists (slot c s), (Assign c s x).
  pose proof (translate_number_eq c s x Hne Hop Hs Hr) as Ht.
  destruct (declared_slot c s x Hok) as (H1 & H2 & H3 & H4 & H5).
  repeat (split; [done|]).
  rewrite (translate_number_eq _ s x Hne Hop Hs Hr).
  by rewrite slot_Assign, Assign_idemp.
Qed.

Lemma translate_literal_witness :
  context_ok empty_context ∧ "3.14" ≠ EmptyString ∧ operator_of "3.14" = None ∧
  ¬ scored "3.14" ∧ strtod (c_str "3.14") = StrtodResult double_3_14 EmptyString 0 ∧
  ∃ p c',
    translate empty_context "3.14" = (inr (VariableRef p), c') ∧
    vm c' !! "3.14" = Some p ∧
    deref c' p = Some (mkRbtVble "3.14" double_3_14) ∧
    context_ok c' ∧
    (vm empty_context !! "3.14" = None →
     p = length (cells empty_context) ∧ size (vm c') = S (size (vm empty_context))) ∧
    (∀ q, vm empty_context !! "3.14" = Some q →
          p = q ∧ vm c' = vm empty_context ∧
          length (cells c') = length (cells empty_context)) ∧
    translate c' "3.14" = (inr (VariableRef p), c').
Proof.
  assert (H1 : context_ok empty_context) by (apply (bool_decide_unpack _); vm_compute; exact I).
  assert (H2 : "3.14" ≠ EmptyString) by discriminate.
  assert (H3 : operator_of "3.14" = None) by reflexivity.
  assert (H4 : ¬ scored "3.14") by (apply not_scored_intro; reflexivity).
  assert (H5 : strtod (c_str "3.14") = StrtodResult double_3_14 EmptyString 0) by (vm_compute; reflexivity).
  repeat (split; [assumption|]).
  exact (translate_literal empty_context "3.14" double_3_14 H1 H2 H3 H4 H5).
Defined.

(** ** C5: unrecognized words *)

(** [strtod] reports a word in full exactly when the word parses in
    full. *)
Lemma strtod_not_in_full (s : string) :
  s ≠ EmptyString → ¬ parses_in_full s →
  sr_errno (strtod s) ≠ 0%Z ∨ sr_endptr (strtod s) ≠ EmptyString.
Proof.
  intros Hne Hn. unfold strtod.
  destruct (read_literal s) as [[l r]|] eqn:Hl; [|by right].
  destruct (round_literal l) as [x e] eqn:Hr. simpl.
  destruct r as [|a r]; [|by right]. left. intros ->.
  apply Hn. exists l. by rewrite Hr.
Qed.

(** For words without a NUL character C5 holds: a non-empty word that is
    no operator word, contains none of [SCORE], [SITE], [LIG] and does not
    parse in full as a floating-point literal makes [translate] throw
    [UnrecognizedToken], "Can't read" followed by the word; no token is
    returned and the context is as it was. *)
Theorem translate_unrecognized (c : RbtContext) (s : string) :
  s ≠ EmptyString → c_str s = s → operator_of s = None → ¬ scored s →
  ¬ parses_in_full s →
  translate c s = (inl (UnrecognizedToken s), c) ∧
  UnrecognizedToken s = mkRbtError ("Can't read " +:+ s).
Proof.
  intros Hne Hc Hop Hs Hr. split; [|reflexivity].
  apply translate_unrecognized_eq; try done. rewrite Hc.
  by apply strtod_not_in_full.
Qed.

Example translate_3_14x (c : RbtContext) :
  translate c "3.14x" = (inl (mkRbtError "Can't read 3.14x"), c).
Proof. reflexivity. Qed.

Example translate_foo (c : RbtContext) :
  translate c "foo" = (inl (mkRbtError "Can't read foo"), c).
Proof. reflexivity. Qed.

(** A number out of range sets [errno] and is not read either. *)
Example translate_1e400 (c : RbtContext) :
  translate c "1e400" = (inl (mkRbtError "Can't read 1e400"), c).
Proof. vm_compute. reflexivity. Qed.

(** C5 fails in the code for a word that starts with a NUL character.
    The word [nul_word] is not empty, is no operator word, contains none of
    [SCORE], [SITE], [LIG] and is no floating-point literal; but its C
    string is empty, [strtod] converts nothing, leaves [*endptr] on the
    terminating NUL and [errno] at 0, and the test [!errno && !*error]
    passes: [translate] returns a [VariableRef] to a new slot holding 0.0
    where C5 requires [UnrecognizedToken].  So does [Current] on a stream
    whose only word is that character. *)
Theorem translate_nul_word :
  nul_word ≠ EmptyString ∧ operator_of nul_word = None ∧ ¬ scored nul_word ∧
  ¬ parses_in_full nul_word ∧
  strtod (c_str nul_word) = StrtodResult zero EmptyString 0 ∧
  translate empty_context nul_word =
    (inr (VariableRef 0), Assign empty_context nul_word zero) ∧
  deref (Assign empty_context nul_word zero) 0 = Some (mkRbtVble nul_word zero) ∧
  (Current (construct (istream_of nul_word) empty_context)).1 = inr (VariableRef 0).
Proof.
  split; [discriminate|]. split; [reflexivity|].
  split; [apply not_scored_intro; reflexivity|].
  split; [intros (l & Hl & _); discriminate|].
  repeat split; reflexivity.
Qed.

(** ** C6: the empty word *)

(** C6.  [translate] throws [EmptyToken] on the empty word.  A stream with
    no word in it (nothing but white space up to its end, or not good to
    begin with) leaves the buffer of a newly constructed iterator empty,
    and the first [Current] throws [EmptyToken], the iterator and its
    context being as constructed. *)
Theorem translate_empty_word :
  (∀ c, translate c EmptyString = (inl EmptyToken, c)) ∧
  (∀ f co, good f = false ∨ skip_spaces (is_buf f) = EmptyString →
           strtok (construct f co) = EmptyString ∧
           Current (construct f co) = (inl EmptyToken, construct f co) ∧
           contextp (construct f co) = co).
Proof.
  split; [reflexivity|]. intros f co H.
  pose proof (extract_nothing f EmptyString H) as He.
  unfold construct. destruct (extract f EmptyString) as [f' w]. simpl in *. by subst w.
Qed.

Lemma translate_empty_word_witness :
  (good (istream_of EmptyString) = false ∨ skip_spaces (is_buf (istream_of EmptyString)) = EmptyString) ∧
  strtok (construct (istream_of EmptyString) empty_context) = EmptyString ∧
  Current (construct (istream_of EmptyString) empty_context) =
    (inl EmptyToken, construct (istream_of EmptyString) empty_context) ∧
  contextp (construct (istream_of EmptyString) empty_context) = empty_context.
Proof.
  assert (H : good (istream_of EmptyString) = false ∨ skip_spaces (is_buf (istream_of EmptyString)) = EmptyString)
    by (right; reflexivity).
  split; [exact H|].
  exact (proj2 translate_empty_word (istream_of EmptyString) empty_context H).
Defined.

(** ** C7: [Current] twice *)

(** C7.  When [Current] returns a token [t] and leaves the iterator [it1],
    a second [Current] with no [Next] in between returns the same token,
    for a variable or a literal a reference to the same slot, and leaves
    the iterator, hence the context, exactly as the first call left it:
    the map has as many entries and the memory as many cells as before. *)
Theorem Current_twice (it it1 : RbtStringTokenIter) (t : RbtToken) :
  Current it = (inr t, it1) →
  Current it1 = (inr t, it1) ∧
  size (vm (contextp (Current it1).2)) = size (vm (contextp it1)) ∧
  length (cells (contextp (Current it1).2)) = length (cells (contextp it1)).
Proof.
  intros H.
  assert (Current it1 = (inr t, it1)) as H1.
  { unfold Current in H.
    pose proof (translate_twice (contextp it) (strtok it)) as Ht.
    destruct (translate (contextp it) (strtok it)) as [[e|t'] c'] eqn:E; [done|].
    injection H as <- <-. unfold Current. simpl in *. by rewrite Ht. }
  by rewrite H1.
Qed.

Lemma Current_twice_witness :
  Current scenario_D =
    (inr (VariableRef 0),
     mkIter (Some (VariableRef 0)) (IStream " LOG" false false) "3.14"
            (Assign empty_context "3.14" double_3_14)) ∧
  let it1 := mkIter (Some (VariableRef 0)) (IStream " LOG" false false) "3.14"
                    (Assign empty_context "3.14" double_3_14) in
  Current it1 = (inr (VariableRef 0), it1) ∧
  size (vm (contextp (Current it1).2)) = size (vm (contextp it1)) ∧
  length (cells (contextp (Current it1).2)) = length (cells (contextp it1)).
Proof.
  assert (H : Current scenario_D =
    (inr (VariableRef 0),
     mkIter (Some (VariableRef 0)) (IStream " LOG" false false) "3.14"
            (Assign empty_context "3.14" double_3_14))) by (vm_compute; reflexivity).
  split; [exact H|].
  exact (Current_twice scenario_D _ _ H).
Defined.

(** ** C8: the context only grows *)

(** C8.  Along any sequence of [Current] and [Next] calls: every entry of
    the map stays, with its slot; the cells of the memory stay in place
    with their names, new ones being added at the end; the names in the
    map are those it had at the start and the variable names and literal
    texts seen by [Current] since, so that the size of the map is at most
    its size at the start plus the number of distinct names and literals
    seen; and one call adds at most one entry. *)
Theorem context_only_grows (ks : list call) (it : RbtStringTokenIter) :
  let c := contextp it in
  let c' := contextp (run ks it) in
  vm c ⊆ vm c' ∧
  GetName <$> cells c `prefix_of` GetName <$> cells c' ∧
  dom (vm c') = dom (vm c) ∪ list_to_set (names_seen ks it) ∧
  size (vm c') ≤ size (vm c) + size (list_to_set (names_seen ks it) : gset string) ∧
  (∀ k, size (vm (contextp (step it k))) ≤ S (size (vm c))).
Proof.
  destruct (run_context ks it) as (H1 & H2 & H3). cbv zeta in *.
  repeat (split; [done|]). split.
  - rewrite <- !size_dom, H3, size_union_alt.
    apply Nat.add_le_mono_l, subseteq_size, subseteq_difference_l. done.
  - intros k. by destruct (step_context it k) as (_ & _ & _ & H4).
Qed.

(** A run on scenario B: three words, two of them entered. *)
Example context_only_grows_B :
  let it := construct (istream_of "SCORE.INTER 0 and") empty_context in
  let ks := [CallCurrent; CallCurrent; CallNext empty_context; CallCurrent;
             CallNext empty_context; CallCurrent; CallCurrent] in
  names_seen ks it = ["SCORE.INTER"; "SCORE.INTER"; "0"] ∧
  size (vm (contextp (run ks it))) = 2 ∧
  GetName <$> cells (contextp (run ks it)) = ["SCORE.INTER"; "0"] ∧
  current (run ks it) = Some (Operator AND).
Proof. vm_compute. repeat split; reflexivity. Qed.

(** ** C9: non-finite literals *)

(** Other spellings [strtod] takes for the non-finite numbers. *)
Example strtod_nonfinite_spellings :
  strtod "-inf" = StrtodResult (infinity true) EmptyString 0 ∧
  strtod "Infinity" = StrtodResult (infinity false) EmptyString 0 ∧
  strtod "NAN" = StrtodResult nan EmptyString 0 ∧
  strtod "nan(0x7ff)" = StrtodResult nan EmptyString 0.
Proof. repeat split; reflexivity. Qed.

(** C9.  The numeric branch does not look at the number [strtod] returns:
    every non-empty word that reaches it and that [strtod] consumes to the
    end with [errno] clear is entered in the context under its own text
    with that number, whatever it is, and a [VariableRef] to its slot is
    returned.  [inf] and [nan] are such words: [strtod] gives infinity and
    a NaN for them, and [translate] enters them with these values. *)
Theorem translate_inf_nan (c : RbtContext) :
  context_ok c →
  (∀ s x, s ≠ EmptyString → operator_of s = None → ¬ scored s →
          strtod (c_str s) = StrtodResult x EmptyString 0 →
          ∃ p, translate c s = (inr (VariableRef p), Assign c s x) ∧
               vm (Assign c s x) !! s = Some p ∧
               deref (Assign c s x) p = Some (mkRbtVble s x)) ∧
  strtod (c_str "inf") = StrtodResult (infinity false) EmptyString 0 ∧
  strtod (c_str "nan") = StrtodResult nan EmptyString 0 ∧
  (∃ p c', translate c "inf" = (inr (VariableRef p), c') ∧
           vm c' !! "inf" = Some p ∧
           deref c' p = Some (mkRbtVble "inf" (infinity false))) ∧
  (∃ p c', translate c "nan" = (inr (VariableRef p), c') ∧
           vm c' !! "nan" = Some p ∧
           deref c' p = Some (mkRbtVble "nan" nan)).
Proof.
  intros Hok.
  assert (∀ s x, s ≠ EmptyString → operator_of s = None → ¬ scored s →
            strtod (c_str s) = StrtodResult x EmptyString 0 →
            ∃ p, translate c s = (inr (VariableRef p), Assign c s x) ∧
                 vm (Assign c s x) !! s = Some p ∧
                 deref (Assign c s x) p = Some (mkRbtVble s x)) as Hall.
  { intros s x Hne Hop Hs Hr. exists (slot c s).
    split; [by apply translate_number_eq|].
    split; [apply Assign_vm_lookup | by apply Assign_deref]. }
  split; [exact Hall|]. split; [reflexivity|]. split; [reflexivity|]. split.
  - destruct (Hall "inf" (infinity false)) as (p & H1 & H2 & H3);
      [discriminate | reflexivity | apply not_scored_intro; reflexivity
      | reflexivity | eauto].
  - destruct (Hall "nan" nan) as (p & H1 & H2 & H3);
      [discriminate | reflexivity | apply not_scored_intro; reflexivity
      | reflexivity | eauto].
Qed.

Lemma translate_inf_nan_witness :
  context_ok empty_context ∧
  (∃ p c', translate empty_context "inf" = (inr (VariableRef p), c') ∧
           vm c' !! "inf" = Some p ∧
           deref c' p = Some (mkRbtVble "inf" (infinity false))) ∧
  (∃ p c', translate empty_context "nan" = (inr (VariableRef p), c') ∧
           vm c' !! "nan" = Some p ∧
           deref c' p = Some (mkRbtVble "nan" nan)).
Proof.
  assert (H : context_ok empty_context) by (apply (bool_decide_unpack _); vm_compute; exact I).
  split; [exact H|].
  exact (proj2 (proj2 (proj2 (translate_inf_nan empty_context H)))).
Defined.

(** ** C10: [Next] *)

(** C10.  [Next] leaves the context and the token cached by the last
    [Current] as they are, and does the same whatever context pointer it
    is given; the buffered word and the stream after it are those of the
    extraction [*filep >> strtok].  When the stream is good and holds,
    after white space, a word followed by white space or by the end, the
    buffered word becomes that word and the stream stands after it; when
    the stream has no word left, the extraction fails and the buffered
    word stays. *)
Theorem Next_frame (it : RbtStringTokenIter) (co : RbtContextPtr) :
  contextp (Next it co) = contextp it ∧
  current (Next it co) = current it ∧
  (∀ co', Next it co' = Next it co) ∧
  (filep (Next it co), strtok (Next it co)) = extract (filep it) (strtok it) ∧
  (∀ ws w rest,
     good (filep it) = true → is_buf (filep it) = ws +:+ w +:+ rest →
     string_forallb CType.isspace ws = true → is_word w → delimited rest →
     strtok (Next it co) = w ∧ is_buf (filep (Next it co)) = rest) ∧
  (good (filep it) = false ∨ skip_spaces (is_buf (filep it)) = EmptyString →
   strtok (Next it co) = strtok it).
Proof.
  unfold Next. split; [by destruct (extract _ _)|].
  split; [by destruct (extract _ _)|]. split; [done|].
  split; [by destruct (extract _ _)|]. split.
  - intros ws w rest Hg Hb Hws Hw Hrest.
    by rewrite (extract_word _ _ ws w rest Hg Hb Hws Hw Hrest).
  - intros H. pose proof (extract_nothing _ (strtok it) H) as He.
    by destruct (extract _ _).
Qed.

Lemma Next_frame_witness :
  let it := (Current scenario_D).2 in
  good (filep it) = true ∧ is_buf (filep it) = " " +:+ "LOG" +:+ EmptyString ∧
  string_forallb CType.isspace " " = true ∧ is_word "LOG" ∧ delimited EmptyString ∧
  strtok (Next it empty_context) = "LOG" ∧
  is_buf (filep (Next it empty_context)) = EmptyString ∧
  contextp (Next it empty_context) = contextp it ∧
  current (Next it empty_context) = Some (VariableRef 0).
Proof.
  intros it.
  assert (H1 : good (filep it) = true) by reflexivity.
  assert (H2 : is_buf (filep it) = " " +:+ "LOG" +:+ EmptyString) by reflexivity.
  assert (H3 : string_forallb CType.isspace " " = true) by reflexivity.
  assert (H4 : is_word "LOG") by (split; [discriminate | reflexivity]).
  assert (H5 : delimited EmptyString) by exact I.
  destruct (Next_frame it empty_context) as (Hc & Ht & _ & _ & Hw & _).
  destruct (Hw " " "LOG" EmptyString H1 H2 H3 H4 H5) as [Hs Hb].
  repeat (split; [assumption|]). rewrite Ht. reflexivity.
Defined.

(** * Further properties of the tokenizer *)

Section TokenizerMore.

Implicit Types (it : RbtStringTokenIter) (c : RbtContext) (s : string).

Lemma all_space_delimited (t : string) : all_space t → delimited t.
Proof.
  destruct t as [|a t]; [done|]. unfold all_space. simpl.
  by intros [Ha _]%andb_true_iff.
Qed.

Lemma words_text_delimited (l : list (string * string)) (trailer : string) :
  separated l → all_space trailer → delimited (words_text l trailer).
Proof.
  intros Hl Ht. destruct l as [|[sep w] l]; simpl.
  - by apply all_space_delimited.
  - apply Forall_cons in Hl as [(Hne & Hsp & _) _]. simpl in *.
    destruct sep as [|a sep]; [done|]. rewrite append_cons.
    by apply (all_space_delimited (String a sep)).
Qed.

Lemma stream_at_good (f : istream) sep w l trailer :
  sep ≠ EmptyString → stream_at f ((sep, w) :: l) trailer → good f = true.
Proof.
  intros Hne (Hb & Hf & He). unfold good. rewrite Hf.
  destruct (is_eof f); [|done]. specialize (He eq_refl).
  rewrite He in Hb. simpl in Hb. destruct sep; [done | discriminate].
Qed.

Lemma extract_stream_at (f : istream) (str : string) sep w l trailer :
  separated ((sep, w) :: l) → all_space trailer →
  stream_at f ((sep, w) :: l) trailer →
  ∃ f', extract f str = (f', w) ∧ stream_at f' l trailer.
Proof.
  intros Hl Ht Hat. pose proof Hl as Hl'.
  apply Forall_cons in Hl' as [(Hne & Hsp & Hw) Hl']. simpl in *.
  pose proof (stream_at_good f sep w l trailer Hne Hat) as Hg.
  destruct Hat as (Hb & _ & _). simpl in Hb.
  eexists. split.
  - apply (extract_word f str sep w (words_text l trailer)); try done.
    by apply words_text_delimited.
  - split; [done|]. split; [done|]. simpl. by destruct (words_text l trailer).
Qed.

Lemma skip_spaces_all_space (t : string) :
  all_space t → skip_spaces t = EmptyString.
Proof.
  unfold all_space. induction t as [|a t IH]; [done|]. simpl.
  intros [Ha Ht]%andb_true_iff. rewrite Ha. by apply IH.
Qed.

Lemma stream_at_end (f : istream) (trailer : string) :
  all_space trailer → stream_at f [] trailer → no_word_left f.
Proof.
  intros Ht (Hb & _ & _). right. rewrite Hb. by apply skip_spaces_all_space.
Qed.

Lemma Next_no_word it co :
  no_word_left (filep it) →
  Next it co =
    mkIter (current it) (filep (Next it co)) (strtok it) (contextp it) ∧
  is_fail (filep (Next it co)) = true.
Proof.
  intros H. unfold Next, extract. destruct (good (filep it)) eqn:Hg.
  - destruct H as [H|H]; [congruence|]. rewrite H. by split.
  - by split.
Qed.

Lemma tokens_stream_at it co l trailer :
  separated l → all_space trailer → stream_at (filep it) l trailer →
  (tokens (S (length l)) it co).1 =
    (translate_all (contextp it) (strtok it :: l.*2)).1 ∧
  contextp (tokens (S (length l)) it co).2 =
    (translate_all (contextp it) (strtok it :: l.*2)).2 ∧
  last (strtok it :: l.*2) = Some (strtok (tokens (S (length l)) it co).2) ∧
  is_fail (filep (tokens (S (length l)) it co).2) = true.
Proof.
  intros Hl Ht. revert it. induction l as [|[sep w] l IH]; intros it Hat.
  - cbn [tokens translate_all length fmap list_fmap last].
    assert (∃ r c1 it1, translate (contextp it) (strtok it) = (r, c1) ∧
              Current it = (r, it1) ∧ filep it1 = filep it ∧
              strtok it1 = strtok it ∧ contextp it1 = c1)
      as (r & c1 & it1 & Htr & Hcu & Hf1 & Hs1 & Hc1).
    { unfold Current.
      destruct (translate (contextp it) (strtok it)) as [[e|t] c1]; eauto 10. }
    rewrite Hcu, Htr. cbn [fst snd].
    destruct (Next_no_word it1 co) as [Hn Hfail].
    { rewrite Hf1. by apply (stream_at_end _ trailer). }
    rewrite Hn. cbn [contextp strtok filep]. rewrite Hs1. done.
  - pose proof Hl as Hl'. apply Forall_cons in Hl' as [_ Hl'].
    change (tokens (S (length ((sep, w) :: l))) it co)
      with (let '(r, it1) := Current it in
            let '(rs, it2) := tokens (S (length l)) (Next it1 co) co in
            (r :: rs, it2)).
    change (translate_all (contextp it) (strtok it :: ((sep, w) :: l).*2))
      with (let '(r, c1) := translate (contextp it) (strtok it) in
            let '(rs, c2) := translate_all c1 (w :: l.*2) in (r :: rs, c2)).
    change (last (strtok it :: ((sep, w) :: l).*2)) with (last (w :: l.*2)).
    assert (∃ r c1 it1, translate (contextp it) (strtok it) = (r, c1) ∧
              Current it = (r, it1) ∧ filep it1 = filep it ∧
              strtok it1 = strtok it ∧ contextp it1 = c1)
      as (r & c1 & it1 & Htr & Hcu & Hf1 & Hs1 & Hc1).
    { unfold Current.
      destruct (translate (contextp it) (strtok it)) as [[e|t] c1]; eauto 10. }
    rewrite Hcu, Htr.
    destruct (extract_stream_at (filep it1) (strtok it1) sep w l trailer)
      as (f' & Hex & Hat'); [done | done | by rewrite Hf1 |].
    assert (Next it1 co = mkIter (current it1) f' w c1) as Hn.
    { unfold Next. by rewrite Hex, Hc1. }
    specialize (IH Hl' (Next it1 co)). rewrite Hn in IH |- *.
    destruct (IH Hat') as (IH1 & IH2 & IH3 & IH4).
    cbn [strtok contextp] in IH1, IH2, IH3.
    destruct (tokens (S (length l)) (mkIter (current it1) f' w c1) co) as [rs it2].
    destruct (translate_all c1 (w :: l.*2)) as [rs' c2].
    cbn [fst snd] in *. by subst.
Qed.

(** By [translate_translated]: what [Current] leaves when it returns. *)
Lemma Current_inr it it1 t :
  Current it = (inr t, it1) →
  translate (contextp it) (strtok it) = (inr t, contextp it1) ∧
  it1 = mkIter (Some t) (filep it) (strtok it) (contextp it1).
Proof.
  unfold Current.
  destruct (translate (contextp it) (strtok it)) as [[e|t'] c1]; [done|].
  by intros [= <- <-].
Qed.

Lemma translate_VariableRef c s p c1 :
  translate c s = (inr (VariableRef p), c1) →
  p = slot c s ∧ ∃ x, c1 = Assign c s x.
Proof.
  intros H. pose proof (translate_translated c s) as Hv. rewrite H in Hv.
  inversion Hv; subst. eauto.
Qed.

Lemma slot_other_ne c s key (q : nat) :
  context_ok c → key ≠ s → vm c !! key = Some q →
  q ≠ slot c s ∧ q < length (cells c).
Proof.
  intros Hok Hne Hq. pose proof (Hok key q Hq) as Hn. simpl in Hn.
  destruct (cells c !! q) as [v|] eqn:Hv; [|done].
  split; [|by apply lookup_lt_Some in Hv].
  unfold slot. destruct (vm c !! s) as [p|] eqn:Hp; simpl.
  - intros ->. pose proof (Hok s p Hp) as Hn'. simpl in Hn'.
    rewrite Hv in Hn'. simpl in *. congruence.
  - apply lookup_lt_Some in Hv. lia.
Qed.

End TokenizerMore.

(** ** The words of a stream come out in order *)

(** A stream that holds the words [w0], [l.*2] separated by white space
    (any white space before the first and after the last) is tokenized as
    [translate] classifies these words one after the other on the
    context: [Current] then [Next], once per word, gives the same results
    and the same final context.  After the last round the buffer still
    holds the last word and the stream has failed. *)
Theorem tokens_of_stream (lead w0 trailer : string) (l : list (string * string))
    (c : RbtContext) (co : RbtContextPtr) :
  all_space lead → is_word w0 → separated l → all_space trailer →
  let it := construct (istream_of (lead +:+ w0 +:+ words_text l trailer)) c in
  let end_ := tokens (S (length l)) it co in
  (end_.1, contextp end_.2) = translate_all c (w0 :: l.*2) ∧
  last (w0 :: l.*2) = Some (strtok end_.2) ∧
  is_fail (filep end_.2) = true.
Proof.
  intros Hlead Hw0 Hl Ht it end_. subst end_.
  assert (∃ f, it = mkIter None f w0 c ∧ stream_at f l trailer) as (f & Hit & Hat).
  { subst it. unfold construct.
    rewrite (extract_word _ _ lead w0 (words_text l trailer)); try done.
    - eexists. split; [done|]. split; [done|]. split; [done|]. simpl.
      by destruct (words_text l trailer).
    - by apply words_text_delimited. }
  destruct (tokens_stream_at it co l trailer Hl Ht) as (H1 & H2 & H3 & H4).
  { by rewrite Hit. }
  rewrite Hit in H1, H2, H3, H4 |- *. cbn [strtok contextp] in H1, H2, H3.
  split; [|by split].
  destruct (translate_all c (w0 :: l.*2)). simpl in *. by subst.
Qed.

Lemma tokens_of_stream_witness :
  all_space EmptyString ∧ is_word "2" ∧ separated [(" ", "3"); (" ", "+")] ∧
  all_space EmptyString ∧
  let it := construct (istream_of (EmptyString +:+ "2" +:+
              words_text [(" ", "3"); (" ", "+")] EmptyString)) empty_context in
  let end_ := tokens 3 it empty_context in
  (end_.1, contextp end_.2) = translate_all empty_context ["2"; "3"; "+"] ∧
  last ["2"; "3"; "+"] = Some (strtok end_.2) ∧
  is_fail (filep end_.2) = true.
Proof.
  assert (H1 : all_space EmptyString) by reflexivity.
  assert (H2 : is_word "2") by (split; [discriminate | reflexivity]).
  assert (H3 : separated [(" ", "3"); (" ", "+")]).
  { repeat (apply Forall_cons; split;
            [split; [discriminate | split; [reflexivity | split; [discriminate | reflexivity]]]|]).
    apply Forall_nil_2. }
  repeat (split; [assumption|]).
  exact (tokens_of_stream EmptyString "2" EmptyString [(" ", "3"); (" ", "+")]
           empty_context empty_context H1 H2 H3 H1).
Defined.

(** Scenario A of the specification: two literals and an operator. *)
Example tokens_scenario_A :
  (tokens 3 (construct (istream_of "2 3 +") empty_context) empty_context).1 =
  [inr (VariableRef 0); inr (VariableRef 1); inr (Operator ADD)].
Proof. vm_compute. reflexivity. Qed.

(** ** Past the end of the stream *)

(** When the stream has no word left, [Next] keeps the buffered word, so
    that [Current] gives again what it gave; the stream has failed, and
    every further [Next] changes nothing at all. *)
Theorem Next_past_end (it : RbtStringTokenIter) (co co' : RbtContextPtr) :
  no_word_left (filep it) →
  strtok (Next it co) = strtok it ∧
  (Current (Next it co)).1 = (Current it).1 ∧
  is_fail (filep (Next it co)) = true ∧
  Next (Next it co) co' = Next it co.
Proof.
  intros H.
  assert (∃ b e, extract (filep it) (strtok it) = (IStream b e true, strtok it))
    as (b & e & Hex).
  { unfold extract. destruct (good (filep it)) eqn:Hg; [|eauto].
    destruct H as [H|H]; [congruence|]. rewrite H. eauto. }
  assert (Next it co = mkIter (current it) (IStream b e true) (strtok it) (contextp it))
    as Hn by (unfold Next; by rewrite Hex).
  rewrite Hn. rewrite !Current_result. repeat (split; [done|]).
  unfold Next, extract, good. cbn [filep strtok is_fail]. by rewrite andb_false_r.
Qed.

Lemma Next_past_end_witness :
  let it := construct (istream_of "exp ") empty_context in
  no_word_left (filep it) ∧
  strtok (Next it empty_context) = strtok it ∧
  (Current (Next it empty_context)).1 = (Current it).1 ∧
  is_fail (filep (Next it empty_context)) = true ∧
  Next (Next it empty_context) empty_context = Next it empty_context.
Proof.
  intros it.
  assert (H : no_word_left (filep it)) by (right; reflexivity).
  split; [exact H|].
  exact (Next_past_end it empty_context empty_context H).
Defined.

(** ** What [translate] and [Current] never do *)

(** [translate] returns an operator token only for one of the eight words
    of the vocabulary, and then hands the context back as it got it. *)
Theorem translate_operator_only (c c' : RbtContext) (s : string) (op : RbtCommands) :
  translate c s = (inr (Operator op), c') →
  (s, op) ∈ operator_vocabulary ∧ c' = c.
Proof.
  rewrite translate_cases.
  destruct (String.length s =? 0)%nat; [done|].
  destruct (operator_of s) as [op'|] eqn:Hop.
  { intros [= <- <-]. split; [by apply operator_of_words | done]. }
  destruct (found (find s "SCORE") || found (find s "SITE") || found (find s "LIG")).
  { by rewrite declare_eq. }
  cbv zeta.
  destruct ((sr_errno (strtod (c_str s)) =? 0)%Z
            && (String.length (sr_endptr (strtod (c_str s))) =? 0)%nat);
    [by rewrite declare_eq | done].
Qed.

Lemma translate_operator_only_witness :
  translate scored_assigned "exp" = (inr (Operator EXP), scored_assigned) ∧
  ("exp", EXP) ∈ operator_vocabulary ∧ scored_assigned = scored_assigned.
Proof.
  assert (H : translate scored_assigned "exp" = (inr (Operator EXP), scored_assigned))
    by reflexivity.
  split; [exact H|].
  exact (translate_operator_only scored_assigned scored_assigned "exp" EXP H).
Defined.

(** When [Current] throws, the iterator is exactly as it was: buffer,
    stream, cached token and context.  The error is [EmptyToken] when the
    buffer is empty and "Can't read" with the buffered word otherwise. *)
Theorem Current_throw_unchanged (it it' : RbtStringTokenIter) (e : RbtError) :
  Current it = (inl e, it') →
  it' = it ∧
  (strtok it = EmptyString ∧ e = EmptyToken ∨
   strtok it ≠ EmptyString ∧ e = UnrecognizedToken (strtok it)).
Proof.
  unfold Current. rewrite translate_cases.
  destruct (String.length (strtok it) =? 0)%nat eqn:Hl.
  { apply length_zero_iff in Hl. intros [= <- <-]. split; [by destruct it | eauto]. }
  assert (strtok it ≠ EmptyString) as Hne.
  { intros H. apply length_zero_iff in H. congruence. }
  destruct (operator_of (strtok it)); [done|].
  destruct (found (find (strtok it) "SCORE") || found (find (strtok it) "SITE")
            || found (find (strtok it) "LIG")).
  { by rewrite declare_eq. }
  cbv zeta.
  destruct ((sr_errno (strtod (c_str (strtok it))) =? 0)%Z
            && (String.length (sr_endptr (strtod (c_str (strtok it)))) =? 0)%nat).
  { by rewrite declare_eq. }
  intros [= <- <-]. split; [by destruct it | eauto].
Qed.

Lemma Current_throw_unchanged_witness :
  let it := Next (Current scenario_D).2 empty_context in
  Current it = (inl (UnrecognizedToken "LOG"), it) ∧
  it = it ∧
  (strtok it = EmptyString ∧ UnrecognizedToken "LOG" = EmptyToken ∨
   strtok it ≠ EmptyString ∧ UnrecognizedToken "LOG" = UnrecognizedToken (strtok it)).
Proof.
  intros it.
  assert (H : Current it = (inl (UnrecognizedToken "LOG"), it)) by (vm_compute; reflexivity).
  split; [exact H|].
  exact (Current_throw_unchanged it it (UnrecognizedToken "LOG") H).
Defined.

(** ** Tokens and slots *)

(** A [VariableRef] returned by [Current] never dangles: whatever calls
    follow on the iterator, the word stays bound to that slot and the cell
    at that slot keeps the word as its name. *)
Theorem VariableRef_stays_valid (it it1 : RbtStringTokenIter) (p : nat) (ks : list call) :
  context_ok (contextp it) → Current it = (inr (VariableRef p), it1) →
  vm (contextp (run ks it1)) !! strtok it = Some p ∧
  GetName <$> deref (contextp (run ks it1)) p = Some (strtok it).
Proof.
  intros Hok Hc. apply Current_inr in Hc as [Ht _].
  apply translate_VariableRef in Ht as (-> & x & Hc1).
  destruct (run_context ks it1) as (Hsub & Hpre & _). cbv zeta in *.
  rewrite Hc1 in Hsub, Hpre. split.
  - eapply lookup_weaken; [apply Assign_vm_lookup | done].
  - unfold deref. rewrite <- list_lookup_fmap.
    eapply prefix_lookup_Some; [|done].
    rewrite list_lookup_fmap.
    by rewrite (Assign_deref _ _ x Hok : cells _ !! _ = _).
Qed.

Lemma VariableRef_stays_valid_witness :
  let it := construct (istream_of "SCORE.INTER 0 and") empty_context in
  let it1 := (Current it).2 in
  let ks := [CallNext empty_context; CallCurrent; CallNext empty_context; CallCurrent] in
  context_ok (contextp it) ∧ Current it = (inr (VariableRef 0), it1) ∧
  vm (contextp (run ks it1)) !! strtok it = Some 0 ∧
  GetName <$> deref (contextp (run ks it1)) 0 = Some (strtok it).
Proof.
  intros it it1 ks.
  assert (H1 : context_ok (contextp it)) by (apply (bool_decide_unpack _); vm_compute; exact I).
  assert (H2 : Current it = (inr (VariableRef 0), it1)) by (vm_compute; reflexivity).
  split; [exact H1|]. split; [exact H2|].
  exact (VariableRef_stays_valid it it1 0 ks H1 H2).
Defined.

(** Classifying a word leaves every other entry of the context alone: its
    slot and the cell at that slot, value included. *)
Theorem translate_frame (c : RbtContext) (s key : string) (q : nat) :
  context_ok c → key ≠ s → vm c !! key = Some q →
  vm (translate c s).2 !! key = Some q ∧
  deref (translate c s).2 q = deref c q.
Proof.
  intros Hok Hne Hq.
  destruct (slot_other_ne c s key q Hok Hne Hq) as [Hs Hlt].
  destruct (translate_translated c s); cbn [snd]; [|done..].
  split.
  - by rewrite Assign_vm_lookup_ne.
  - by apply Assign_cells_other.
Qed.

Lemma translate_frame_witness :
  context_ok scored_assigned ∧ "SCORE" ≠ "2.5" ∧
  vm scored_assigned !! "SCORE" = Some 0 ∧
  vm (translate scored_assigned "2.5").2 !! "SCORE" = Some 0 ∧
  deref (translate scored_assigned "2.5").2 0 = deref scored_assigned 0.
Proof.
  assert (H1 : context_ok scored_assigned) by (apply (bool_decide_unpack _); vm_compute; exact I).
  assert (H2 : "SCORE" ≠ "2.5") by discriminate.
  assert (H3 : vm scored_assigned !! "SCORE" = Some 0) by reflexivity.
  split; [exact H1|]. split; [exact H2|]. split; [exact H3|].
  exact (translate_frame scored_assigned "2.5" "SCORE" 0 H1 H2 H3).
Defined.

(** Two different words never share a slot: the token of the second
    refers to another slot than the token of the first, also when both
    words are read as the same number. *)
Theorem distinct_words_distinct_slots (c c1 c2 : RbtContext) (s1 s2 : string) (p1 p2 : nat) :
  context_ok c → s1 ≠ s2 →
  translate c s1 = (inr (VariableRef p1), c1) →
  translate c1 s2 = (inr (VariableRef p2), c2) →
  p1 ≠ p2 ∧ deref c2 p1 = deref c1 p1.
Proof.
  intros Hok Hne H1 H2.
  apply translate_VariableRef in H1 as (-> & x1 & ->).
  apply translate_VariableRef in H2 as (-> & x2 & ->).
  pose proof (context_ok_Assign c s1 x1 Hok) as Hok1.
  destruct (slot_other_ne (Assign c s1 x1) s2 s1 (slot c s1) Hok1 Hne
              (Assign_vm_lookup c s1 x1)) as [Hs Hlt].
  split; [done|]. by apply Assign_cells_other.
Qed.

Lemma distinct_words_distinct_slots_witness :
  context_ok empty_context ∧ "2" ≠ "2.0" ∧
  translate empty_context "2" =
    (inr (VariableRef 0), Assign empty_context "2" (S754_finite false 4503599627370496 (-51))) ∧
  translate (Assign empty_context "2" (S754_finite false 4503599627370496 (-51))) "2.0" =
    (inr (VariableRef 1),
     Assign (Assign empty_context "2" (S754_finite false 4503599627370496 (-51)))
            "2.0" (S754_finite false 4503599627370496 (-51))) ∧
  0 ≠ 1 ∧
  deref (Assign (Assign empty_context "2" (S754_finite false 4503599627370496 (-51)))
                "2.0" (S754_finite false 4503599627370496 (-51))) 0 =
  deref (Assign empty_context "2" (S754_finite false 4503599627370496 (-51))) 0.
Proof.
  assert (H1 : context_ok empty_context) by (apply (bool_decide_unpack _); vm_compute; exact I).
  assert (H2 : "2" ≠ "2.0") by discriminate.
  assert (H3 : translate empty_context "2" =
    (inr (VariableRef 0), Assign empty_context "2" (S754_finite false 4503599627370496 (-51))))
    by (vm_compute; reflexivity).
  assert (H4 : translate (Assign empty_context "2" (S754_finite false 4503599627370496 (-51))) "2.0" =
    (inr (VariableRef 1),
     Assign (Assign empty_context "2" (S754_finite false 4503599627370496 (-51)))
            "2.0" (S754_finite false 4503599627370496 (-51))))
    by (vm_compute; reflexivity).
  split; [exact H1|]. split; [exact H2|]. split; [exact H3|]. split; [exact H4|].
  exact (distinct_words_distinct_slots _ _ _ "2" "2.0" 0 1 H1 H2 H3 H4).
Defined.

(** A value assigned to a name after tokenization is read through the
    token obtained before: the assignment writes the cell the token refers
    to, and adds neither an entry nor a cell. *)
Theorem token_reads_assigned_value (c c1 : RbtContext) (s : string) (p : nat) (v : RbtDouble) :
  context_ok c → translate c s = (inr (VariableRef p), c1) →
  deref (Assign c1 s v) p = Some (mkRbtVble s v) ∧
  vm (Assign c1 s v) = vm c1 ∧
  length (cells (Assign c1 s v)) = length (cells c1).
Proof.
  intros Hok Ht. apply translate_VariableRef in Ht as (-> & x & ->).
  pose proof (context_ok_Assign c s x Hok) as Hok1.
  pose proof (Assign_deref (Assign c s x) s v Hok1) as Hd.
  rewrite slot_Assign in Hd. split; [done|].
  rewrite (Assign_present (Assign c s x) s v (slot c s)) by apply Assign_vm_lookup.
  simpl. split; [done | apply length_alter].
Qed.

Lemma token_reads_assigned_value_witness :
  context_ok empty_context ∧
  translate empty_context "SCORE.INTER" =
    (inr (VariableRef 0), Assign empty_context "SCORE.INTER" zero) ∧
  deref (Assign (Assign empty_context "SCORE.INTER" zero) "SCORE.INTER" one) 0 =
    Some (mkRbtVble "SCORE.INTER" one) ∧
  vm (Assign (Assign empty_context "SCORE.INTER" zero) "SCORE.INTER" one) =
    vm (Assign empty_context "SCORE.INTER" zero) ∧
  length (cells (Assign (Assign empty_context "SCORE.INTER" zero) "SCORE.INTER" one)) =
    length (cells (Assign empty_context "SCORE.INTER" zero)).
Proof.
  assert (H1 : context_ok empty_context) by (apply (bool_decide_unpack _); vm_compute; exact I).
  assert (H2 : translate empty_context "SCORE.INTER" =
    (inr (VariableRef 0), Assign empty_context "SCORE.INTER" zero)) by (vm_compute; reflexivity).
  split; [exact H1|]. split; [exact H2|].
  exact (token_reads_assigned_value _ _ "SCORE.INTER" 0 one H1 H2).
Defined.

(** * Copies of an iterator *)

(** On one object, the calls on the heap do what [Next] and [Current] do
    on the iterator the object stands for, and touch nothing else in the
    heap: no other stream, no other context. *)
Theorem Shared_refines (h : Shared.Heap) (o : Shared.Iter) (it : RbtStringTokenIter) (a : nat) (co : RbtContextPtr) :
  Shared.load h o = Some it →
  (∃ h' o', Shared.Next h o a = Some (h', o') ∧
            Shared.load h' o' = Some (Next it co) ∧
            Shared.contexts h' = Shared.contexts h ∧
            ∀ q, q ≠ Shared.s_filep o →
                 Shared.streams h' !! q = Shared.streams h !! q) ∧
  (∃ h' o', Shared.Current h o = Some ((Current it).1, h', o') ∧
            Shared.load h' o' = Some (Current it).2 ∧
            Shared.streams h' = Shared.streams h ∧
            ∀ q, q ≠ Shared.s_contextp o →
                 Shared.contexts h' !! q = Shared.contexts h !! q).
Proof.
  unfold Shared.load. intros H.
  destruct (Shared.streams h !! Shared.s_filep o) as [f|] eqn:Hf; [|done].
  destruct (Shared.contexts h !! Shared.s_contextp o) as [c|] eqn:Hc; [|done].
  injection H as <-. split.
  - unfold Shared.Next, Next. rewrite Hf. cbn [filep strtok current contextp].
    destruct (extract f (Shared.s_strtok o)) as [f' w].
    eexists _, _. split; [done|]. cbn. rewrite lookup_insert_eq, Hc.
    split; [done|]. split; [done|]. intros q Hq. by rewrite lookup_insert_ne.
  - unfold Shared.Current, Current. rewrite Hc. cbn [filep strtok current contextp].
    destruct (translate c (Shared.s_strtok o)) as [[e|t] c'];
      eexists _, _; (split; [done|]); cbn; rewrite lookup_insert_eq, Hf;
      (split; [by destruct o|]); (split; [done|]);
      intros q Hq; by rewrite lookup_insert_ne.
Qed.

Lemma Shared_refines_witness :
  Shared.load shared_heap_D shared_iter_D = Some scenario_D ∧
  (∃ h' o', Shared.Next shared_heap_D shared_iter_D 0 = Some (h', o') ∧
            Shared.load h' o' = Some (Next scenario_D empty_context) ∧
            Shared.contexts h' = Shared.contexts shared_heap_D ∧
            ∀ q, q ≠ Shared.s_filep shared_iter_D →
                 Shared.streams h' !! q = Shared.streams shared_heap_D !! q) ∧
  (∃ h' o', Shared.Current shared_heap_D shared_iter_D =
              Some ((Current scenario_D).1, h', o') ∧
            Shared.load h' o' = Some (Current scenario_D).2 ∧
            Shared.streams h' = Shared.streams shared_heap_D ∧
            ∀ q, q ≠ Shared.s_contextp shared_iter_D →
                 Shared.contexts h' !! q = Shared.contexts shared_heap_D !! q).
Proof.
  assert (H : Shared.load shared_heap_D shared_iter_D = Some scenario_D) by reflexivity.
  split; [exact H|].
  exact (Shared_refines shared_heap_D shared_iter_D scenario_D 0 empty_context H).
Defined.

(** A copy has no stream position of its own.  When the stream holds two
    more words, [a] then [b], [Next] on a copy takes [a] and the following
    [Next] on the original takes [b]: the original never sees [a]. *)
Theorem copies_share_stream (h : Shared.Heap) (self o1 : Shared.Iter) (f : istream)
    (ws1 a ws2 b rest : string) (a1 a2 : nat) :
  Shared.streams h !! Shared.s_filep o1 = Some f →
  good f = true → is_buf f = ws1 +:+ a +:+ ws2 +:+ b +:+ rest →
  all_space ws1 → is_word a → ws2 ≠ EmptyString → all_space ws2 →
  is_word b → delimited rest →
  Shared.copy self o1 = Shared.copy_construct o1 ∧
  ∃ h1 o2' h2 o1',
    Shared.Next h (Shared.copy self o1) a1 = Some (h1, o2') ∧
    Shared.Next h1 o1 a2 = Some (h2, o1') ∧
    Shared.s_strtok o2' = a ∧ Shared.s_strtok o1' = b.
Proof.
  intros Hf Hg Hb Hws1 Ha Hne Hws2 Hwb Hrest. split; [done|].
  destruct ws2 as [|x ws2]; [done|].
  assert (delimited (String x ws2 +:+ b +:+ rest)) as Hd.
  { rewrite append_cons. by apply (all_space_delimited (String x ws2)). }
  pose proof (extract_word f (Shared.s_strtok o1) ws1 a _ Hg Hb Hws1 Ha Hd) as E1.
  rewrite append_cons in E1.
  pose proof (extract_word (IStream (String x (ws2 +:+ b +:+ rest)) false false)
                (Shared.s_strtok o1) (String x ws2) b rest eq_refl eq_refl
                Hws2 Hwb Hrest) as E2.
  unfold Shared.Next. cbn [Shared.copy Shared.s_filep Shared.s_strtok
                           Shared.s_current Shared.s_contextp].
  rewrite Hf, E1. eexists _, _, _, _. split; [reflexivity|].
  cbn [Shared.streams]. rewrite lookup_insert_eq, E2. done.
Qed.

Lemma copies_share_stream_witness :
  let h := Shared.mkHeap {[ 0 := IStream " 3 +" false false ]} {[ 0 := empty_context ]} in
  let o1 := Shared.mkShared None 0 "2" 0 in
  Shared.streams h !! Shared.s_filep o1 = Some (IStream " 3 +" false false) ∧
  good (IStream " 3 +" false false) = true ∧
  is_buf (IStream " 3 +" false false) = " " +:+ "3" +:+ " " +:+ "+" +:+ EmptyString ∧
  all_space " " ∧ is_word "3" ∧ " " ≠ EmptyString ∧ all_space " " ∧
  is_word "+" ∧ delimited EmptyString ∧
  ∃ h1 o2' h2 o1',
    Shared.Next h (Shared.copy o1 o1) 0 = Some (h1, o2') ∧
    Shared.Next h1 o1 0 = Some (h2, o1') ∧
    Shared.s_strtok o2' = "3" ∧ Shared.s_strtok o1' = "+".
Proof.
  intros h o1.
  assert (H1 : Shared.streams h !! Shared.s_filep o1 = Some (IStream " 3 +" false false))
    by reflexivity.
  assert (H2 : good (IStream " 3 +" false false) = true) by reflexivity.
  assert (H3 : is_buf (IStream " 3 +" false false) =
               " " +:+ "3" +:+ " " +:+ "+" +:+ EmptyString) by reflexivity.
  assert (H4 : all_space " ") by reflexivity.
  assert (H5 : is_word "3") by (split; [discriminate | reflexivity]).
  assert (H6 : " " ≠ EmptyString) by discriminate.
  assert (H7 : is_word "+") by (split; [discriminate | reflexivity]).
  assert (H8 : delimited EmptyString) by exact I.
  split; [exact H1|]. split; [exact H2|]. split; [exact H3|]. split; [exact H4|].
  split; [exact H5|]. split; [exact H6|]. split; [exact H4|]. split; [exact H7|].
  split; [exact H8|].
  exact (proj2 (copies_share_stream h o1 o1 _ " " "3" " " "+" EmptyString 0 0
                  H1 H2 H3 H4 H5 H6 H4 H7 H8)).
Defined.

(** A copy shares the context.  When [Current] on a copy returns a token,
    [Current] on the original returns the same token, for a variable or a
    literal the same slot, and leaves the heap as the copy's call left
    it. *)
Theorem copies_share_context (h h1 : Shared.Heap) (self o1 o2' : Shared.Iter) (t : RbtToken) :
  Shared.Current h (Shared.copy self o1) = Some (inr t, h1, o2') →
  ∃ o1', Shared.Current h1 o1 = Some (inr t, h1, o1') ∧
         Shared.s_current o1' = Shared.s_current o2'.
Proof.
  unfold Shared.Current. cbn [Shared.copy Shared.s_filep Shared.s_strtok
                              Shared.s_current Shared.s_contextp].
  destruct (Shared.contexts h !! Shared.s_contextp o1) as [c|] eqn:Hc; [|done].
  pose proof (translate_twice c (Shared.s_strtok o1)) as Ht.
  destruct (translate c (Shared.s_strtok o1)) as [[e|t'] c'] eqn:E; [done|].
  intros [= <- <- <-]. cbn [Shared.contexts Shared.streams snd] in *.
  rewrite lookup_insert_eq, Ht. eexists. split; [|done].
  by rewrite insert_insert_eq.
Qed.

Lemma copies_share_context_witness :
  Shared.Current shared_heap_D (Shared.copy shared_iter_D shared_iter_D) =
    Some (inr (VariableRef 0),
          Shared.mkHeap {[ 0 := IStream " LOG" false false ]}
                        {[ 0 := Assign empty_context "3.14" double_3_14 ]},
          Shared.mkShared (Some (VariableRef 0)) 0 "3.14" 0) ∧
  ∃ o1', Shared.Current
           (Shared.mkHeap {[ 0 := IStream " LOG" false false ]}
                          {[ 0 := Assign empty_context "3.14" double_3_14 ]})
           shared_iter_D =
         Some (inr (VariableRef 0),
               Shared.mkHeap {[ 0 := IStream " LOG" false false ]}
                             {[ 0 := Assign empty_context "3.14" double_3_14 ]}, o1') ∧
         Shared.s_current o1' = Some (VariableRef 0).
Proof.
  assert (H : Shared.Current shared_heap_D (Shared.copy shared_iter_D shared_iter_D) =
    Some (inr (VariableRef 0),
          Shared.mkHeap {[ 0 := IStream " LOG" false false ]}
                        {[ 0 := Assign empty_context "3.14" double_3_14 ]},
          Shared.mkShared (Some (VariableRef 0)) 0 "3.14" 0)) by (vm_compute; reflexivity).
  split; [exact H|].
  exact (copies_share_context _ _ shared_iter_D shared_iter_D _ _ H).
Defined.

(** * The CHARMm data source *)

Section CharmmFacts.

Import Charmm.

Implicit Types (el : RbtElementFileSource) (ds : RbtCharmmDataSource)
  (l : list RbtCharmmType) (t : RbtCharmmType) (s : string) (n : Z).

Lemma last_where_Some {A : Type} (p : A → bool) (l : list A) (x : A) :
  last_where p l = Some x → x ∈ l ∧ p x = true.
Proof.
  induction l as [|y l IH]; [done|]. simpl.
  destruct (last_where p l) as [z|].
  - intros [= ->]. destruct (IH eq_refl). split; [by right | done].
  - destruct (p y) eqn:Hp; [|done]. intros [= ->]. split; [by left | done].
Qed.

Lemma last_where_None {A : Type} (p : A → bool) (l : list A) :
  last_where p l = None ↔ ∀ x, x ∈ l → p x = false.
Proof.
  induction l as [|y l IH]; simpl.
  - split; [|done]. intros _ x Hx. by apply elem_of_nil in Hx.
  - destruct (last_where p l) as [z|] eqn:Hl.
    + split; [done|]. intros H.
      apply last_where_Some in Hl as [Hz Hp]. rewrite H in Hp; [done | by right].
    + destruct (p y) eqn:Hp.
      * split; [done|]. intros H. rewrite H in Hp; [done | by left].
      * split; [|done]. intros _ x [->|Hx]%elem_of_cons; [done|].
        by apply (proj1 IH).
Qed.

(** What the loop of the constructor leaves in the three maps it fills. *)
Lemma add_types_maps el ds ds' l :
  add_types el ds l = inr ds' →
  (∀ n, m_atomTypes ds' !! n =
        match last_numbered n l with
        | Some t => Some (strAtomType t)
        | None => m_atomTypes ds !! n
        end) ∧
  (∀ s, match last_named s l with
        | Some t => ∃ d, GetElementData el (element t) = inr d ∧
                         m_atomicNumber ds' !! s = Some (atomicNo d) ∧
                         m_hybridState ds' !! s =
                           Some (ConvertCommentStringToHybridState (comment t))
        | None => m_atomicNumber ds' !! s = m_atomicNumber ds !! s ∧
                  m_hybridState ds' !! s = m_hybridState ds !! s
        end) ∧
  m_implicitHydrogens ds' = m_implicitHydrogens ds ∧
  m_formalCharge ds' = m_formalCharge ds.
Proof.
  revert ds. induction l as [|t l IH]; intros ds; simpl.
  - intros [= ->]. done.
  - unfold add_type.
    destruct (GetElementData el (element t)) as [e|d] eqn:Hd; [done|].
    intros H. apply IH in H as (H1 & H2 & H3 & H4). cbn in *.
    split; [|split; [|done]].
    + intros n. rewrite H1. unfold last_numbered. simpl.
      destruct (last_where _ l); [done|].
      rewrite lookup_insert. destruct (Z.eqb_spec (nAtomType t) n);
        case_decide; congruence.
    + intros s. specialize (H2 s). unfold last_named in *. simpl.
      destruct (last_where _ l); [done|]. destruct H2 as [H2 H2'].
      destruct (String.eqb_spec (strAtomType t) s) as [Heq|Hne].
      * exists d. rewrite H2, H2'. rewrite <- Heq. by rewrite !lookup_insert_eq.
      * by rewrite H2, H2', !lookup_insert_ne.
Qed.

Lemma add_types_known el ds l :
  elements_known el l → ∃ ds', add_types el ds l = inr ds'.
Proof.
  revert ds. induction l as [|t l IH]; intros ds Hk; simpl; [eauto|].
  apply Forall_cons in Hk as [[d Hd] Hk]. unfold add_type. rewrite Hd.
  by apply IH.
Qed.

Lemma add_types_unknown el ds l1 t l2 e :
  elements_known el l1 → GetElementData el (element t) = inl e →
  add_types el ds (l1 ++ t :: l2) = inl e.
Proof.
  revert ds. induction l1 as [|u l1 IH]; intros ds Hk He; simpl.
  - unfold add_type. by rewrite He.
  - apply Forall_cons in Hk as [[d Hd] Hk]. unfold add_type at 1. rewrite Hd.
    by apply IH.
Qed.

Lemma construct_inr el l ds :
  construct el l = inr ds →
  ∃ ds0, add_types el (mkDataSource ∅ ∅ ∅ ∅ ∅) l = inr ds0 ∧
         m_atomTypes ds = m_atomTypes ds0 ∧
         m_atomicNumber ds = m_atomicNumber ds0 ∧
         m_hybridState ds = m_hybridState ds0 ∧
         m_implicitHydrogens ds =
           <["NH2E" := 2%Z]> (<["SH1E" := 1%Z]> (<["C6RE" := 1%Z]>
           (<["C5RE" := 1%Z]> (<["CH3E" := 3%Z]> (<["CH2E" := 2%Z]>
           (<["CH1E" := 1%Z]> ∅)))))) ∧
         m_formalCharge ds =
           <["NC" := 1%Z]> (<["HC" := 1%Z]> (<["OC" := (-1)%Z]> ∅)).
Proof.
  unfold construct.
  destruct (add_types el _ l) as [e|ds0] eqn:H; [done|]. intros [= <-].
  apply add_types_maps in H as H'. destruct H' as (_ & _ & H3 & H4).
  exists ds0. cbn in *. by rewrite H3, H4.
Qed.

End CharmmFacts.

(** ** Looking types up *)

(** [AtomTypeString] returns the name of the last type of the masses list
    that has the number asked for (a later line of the file overrides an
    earlier one), and throws [RbtFileMissingParameter], with the number in
    the message, when no type has it. *)
Theorem Charmm_AtomTypeString_last (el : Charmm.RbtElementFileSource)
    (l : list Charmm.RbtCharmmType) (ds : Charmm.RbtCharmmDataSource) (n : Z) :
  Charmm.construct el l = inr ds →
  Charmm.AtomTypeString ds n =
  match Charmm.last_numbered n l with
  | Some t => inr (Charmm.strAtomType t)
  | None =>
      inl (Charmm.RbtFileMissingParameter
             ("CHARMm atom type #" +:+ pretty n +:+
              " not found in CharmmDataSource" +:+ Charmm.ends))
  end.
Proof.
  intros (ds0 & H & Ha & _)%construct_inr.
  apply add_types_maps in H as (H1 & _). unfold Charmm.AtomTypeString.
  rewrite Ha, H1. by destruct (Charmm.last_numbered n l).
Qed.

Lemma Charmm_AtomTypeString_last_witness :
  Charmm.construct Charmm.elements_CHON Charmm.masses_example =
    inr Charmm.source_example ∧
  Charmm.AtomTypeString Charmm.source_example 11 = inr "CR" ∧
  Charmm.AtomTypeString Charmm.source_example 12 =
    inl (Charmm.RbtFileMissingParameter
           ("CHARMm atom type #12 not found in CharmmDataSource" +:+ Charmm.ends)).
Proof.
  assert (H : Charmm.construct Charmm.elements_CHON Charmm.masses_example =
              inr Charmm.source_example) by reflexivity.
  split; [exact H|]. split.
  - exact (Charmm_AtomTypeString_last _ _ Charmm.source_example 11 H).
  - exact (Charmm_AtomTypeString_last _ _ Charmm.source_example 12 H).
Defined.

(** [AtomicNumber] and [HybridState] know the same names, those of the
    masses list.  For a name of the list they return the atomic number of
    the element, and the hybridisation state written in the comment, of
    the last type with that name; for any other name both throw
    [RbtFileMissingParameter]. *)
Theorem Charmm_lookup_by_name (el : Charmm.RbtElementFileSource)
    (l : list Charmm.RbtCharmmType) (ds : Charmm.RbtCharmmDataSource) (s : string) :
  Charmm.construct el l = inr ds →
  match Charmm.last_named s l with
  | Some t =>
      ∃ d, Charmm.GetElementData el (Charmm.element t) = inr d ∧
           Charmm.AtomicNumber ds s = inr (Charmm.atomicNo d) ∧
           Charmm.HybridState ds s =
             inr (Charmm.ConvertCommentStringToHybridState (Charmm.comment t))
  | None =>
      Charmm.AtomicNumber ds s = inl (Charmm.not_found s) ∧
      Charmm.HybridState ds s = inl (Charmm.not_found s)
  end.
Proof.
  intros (ds0 & H & _ & Hn & Hh & _)%construct_inr.
  apply add_types_maps in H as (_ & H2 & _). specialize (H2 s).
  unfold Charmm.AtomicNumber, Charmm.HybridState. rewrite Hn, Hh.
  destruct (Charmm.last_named s l) as [t|].
  - destruct H2 as (d & Hd & H2 & H2'). exists d. by rewrite H2, H2'.
  - destruct H2 as [H2 H2']. rewrite H2, H2'.
    cbn [Charmm.m_atomicNumber Charmm.m_hybridState]. by rewrite !lookup_empty.
Qed.

Lemma Charmm_lookup_by_name_witness :
  Charmm.construct Charmm.elements_CHON Charmm.masses_example =
    inr Charmm.source_example ∧
  (∃ d, Charmm.GetElementData Charmm.elements_CHON "O" = inr d ∧
        Charmm.AtomicNumber Charmm.source_example "OC" = inr (Charmm.atomicNo d) ∧
        Charmm.HybridState Charmm.source_example "OC" = inr Charmm.TRI) ∧
  Charmm.AtomicNumber Charmm.source_example "XX" = inl (Charmm.not_found "XX") ∧
  Charmm.HybridState Charmm.source_example "XX" = inl (Charmm.not_found "XX").
Proof.
  assert (H : Charmm.construct Charmm.elements_CHON Charmm.masses_example =
              inr Charmm.source_example) by reflexivity.
  split; [exact H|]. split.
  - exact (Charmm_lookup_by_name _ _ Charmm.source_example "OC" H).
  - exact (Charmm_lookup_by_name _ _ Charmm.source_example "XX" H).
Defined.

(** Every name [AtomTypeString] returns is a name [AtomicNumber] and
    [HybridState] know: neither throws for it. *)
Theorem Charmm_type_number_resolves (el : Charmm.RbtElementFileSource)
    (l : list Charmm.RbtCharmmType) (ds : Charmm.RbtCharmmDataSource)
    (n : Z) (s : string) :
  Charmm.construct el l = inr ds → Charmm.AtomTypeString ds n = inr s →
  ∃ z h, Charmm.AtomicNumber ds s = inr z ∧ Charmm.HybridState ds s = inr h.
Proof.
  intros Hc Ha.
  assert (∃ t, t ∈ l ∧ Charmm.strAtomType t = s) as (t & Ht & Hs).
  { pose proof Hc as (ds0 & H & Hat & _)%construct_inr.
    apply add_types_maps in H as (H1 & _). specialize (H1 n).
    unfold Charmm.AtomTypeString in Ha. rewrite Hat, H1 in Ha.
    destruct (Charmm.last_numbered n l) as [t|] eqn:Hl.
    - unfold Charmm.last_numbered in Hl.
      apply last_where_Some in Hl as [Hl _]. exists t. split; [done|]. congruence.
    - cbn [Charmm.m_atomTypes] in Ha. by rewrite lookup_empty in Ha. }
  pose proof Hc as (ds0 & H & _ & Hn & Hh & _)%construct_inr.
  apply add_types_maps in H as (_ & H2 & _). specialize (H2 s).
  destruct (Charmm.last_named s l) as [u|] eqn:Hl.
  - destruct H2 as (d & _ & H2 & H2').
    unfold Charmm.AtomicNumber, Charmm.HybridState. rewrite Hn, Hh, H2, H2'. eauto.
  - unfold Charmm.last_named in Hl.
    pose proof (proj1 (last_where_None _ _) Hl t Ht) as Hf. simpl in Hf.
    rewrite Hs in Hf. by rewrite String.eqb_refl in Hf.
Qed.

Lemma Charmm_type_number_resolves_witness :
  Charmm.construct Charmm.elements_CHON Charmm.masses_example =
    inr Charmm.source_example ∧
  Charmm.AtomTypeString Charmm.source_example 13 = inr "CH2E" ∧
  ∃ z h, Charmm.AtomicNumber Charmm.source_example "CH2E" = inr z ∧
         Charmm.HybridState Charmm.source_example "CH2E" = inr h.
Proof.
  assert (H : Charmm.construct Charmm.elements_CHON Charmm.masses_example =
              inr Charmm.source_example) by reflexivity.
  assert (Ha : Charmm.AtomTypeString Charmm.source_example 13 = inr "CH2E")
    by reflexivity.
  split; [exact H|]. split; [exact Ha|].
  exact (Charmm_type_number_resolves _ _ Charmm.source_example 13 "CH2E" H Ha).
Defined.

(** ** The two built-in tables *)

Ltac in_list :=
  repeat (first [apply list_elem_of_here | apply list_elem_of_further]).

Lemma implicit_hydrogens_table (m : gmap string Z) (s : string) :
  m = <["NH2E" := 2%Z]> (<["SH1E" := 1%Z]> (<["C6RE" := 1%Z]>
      (<["C5RE" := 1%Z]> (<["CH3E" := 3%Z]> (<["CH2E" := 2%Z]>
      (<["CH1E" := 1%Z]> ∅)))))) →
  (0 ≤ default 0 (m !! s) ≤ 3)%Z ∧
  (default 0%Z (m !! s) ≠ 0%Z ↔
   s ∈ ["CH1E"; "CH2E"; "CH3E"; "C5RE"; "C6RE"; "SH1E"; "NH2E"]).
Proof.
  intros ->.
  destruct (decide (s ∈ ["CH1E"; "CH2E"; "CH3E"; "C5RE"; "C6RE"; "SH1E"; "NH2E"]))
    as [Hin|Hnin].
  - repeat (apply elem_of_cons in Hin as [->|Hin];
            [split; [by vm_compute | split; [intros _; in_list | by vm_compute]]|]).
    by apply elem_of_nil in Hin.
  - repeat (rewrite lookup_insert_ne; [|intros <-; apply Hnin; in_list]).
    rewrite lookup_empty. simpl. split; [lia | tauto].
Qed.

Ltac not_in_list H :=
  repeat (apply elem_of_cons in H as [H|H]; [discriminate|]);
  by apply elem_of_nil in H.

Lemma formal_charge_table (m : gmap string Z) (s : string) :
  m = <["NC" := 1%Z]> (<["HC" := 1%Z]> (<["OC" := (-1)%Z]> ∅)) →
  let c := default 0%Z (m !! s) in
  (c = (-1)%Z ∨ c = 0%Z ∨ c = 1%Z) ∧
  (c = (-1)%Z ↔ s = "OC") ∧ (c = 1%Z ↔ s ∈ ["HC"; "NC"]).
Proof.
  intros ->. cbv zeta.
  destruct (decide (s ∈ ["OC"; "HC"; "NC"])) as [Hin|Hnin].
  - apply elem_of_cons in Hin as [->|Hin];
      [|apply elem_of_cons in Hin as [->|Hin];
        [|apply elem_of_cons in Hin as [->|Hin]; [|by apply elem_of_nil in Hin]]].
    + change (default 0%Z (_ !! "OC")) with (-1)%Z.
      split; [tauto|]. split; [done|]. split; [lia|]. intros H. not_in_list H.
    + change (default 0%Z (_ !! "HC")) with 1%Z.
      split; [tauto|]. split; [split; [lia | discriminate]|].
      split; [intros _; in_list | done].
    + change (default 0%Z (_ !! "NC")) with 1%Z.
      split; [tauto|]. split; [split; [lia | discriminate]|].
      split; [intros _; in_list | done].
  - repeat (rewrite lookup_insert_ne; [|intros <-; apply Hnin; in_list]).
    rewrite lookup_empty. simpl. split; [tauto|]. split.
    + split; [lia|]. intros ->. exfalso. apply Hnin. in_list.
    + split; [lia|]. intros H. exfalso. apply Hnin. by right.
Qed.

(** [ImplicitHydrogens] and [FormalCharge] never throw, whatever the
    masses file held: a type they do not list gets 0.  The number of
    implicit hydrogens is between 0 and 3 and is not 0 exactly for the
    seven extended-atom types; the formal charge is -1, 0 or +1, negative
    exactly for [OC] and positive exactly for [HC] and [NC]. *)
Theorem Charmm_tables (el : Charmm.RbtElementFileSource)
    (l : list Charmm.RbtCharmmType) (ds : Charmm.RbtCharmmDataSource) (s : string) :
  Charmm.construct el l = inr ds →
  ∃ n c, Charmm.ImplicitHydrogens ds s = inr n ∧
         Charmm.FormalCharge ds s = inr c ∧
         (0 ≤ n ≤ 3)%Z ∧
         (n ≠ 0%Z ↔ s ∈ ["CH1E"; "CH2E"; "CH3E"; "C5RE"; "C6RE"; "SH1E"; "NH2E"]) ∧
         (c = (-1)%Z ∨ c = 0%Z ∨ c = 1%Z) ∧
         (c = (-1)%Z ↔ s = "OC") ∧
         (c = 1%Z ↔ s ∈ ["HC"; "NC"]).
Proof.
  intros (ds0 & _ & _ & _ & _ & Hi & Hf)%construct_inr.
  exists (default 0%Z (Charmm.m_implicitHydrogens ds !! s)),
         (default 0%Z (Charmm.m_formalCharge ds !! s)).
  unfold Charmm.ImplicitHydrogens, Charmm.FormalCharge.
  split; [by destruct (_ !! s)|]. split; [by destruct (_ !! s)|].
  destruct (implicit_hydrogens_table _ s Hi) as [H1 H2].
  destruct (formal_charge_table _ s Hf) as (H3 & H4 & H5).
  done.
Qed.

Lemma Charmm_tables_witness :
  Charmm.construct Charmm.elements_CHON Charmm.masses_example =
    inr Charmm.source_example ∧
  ∃ n c, Charmm.ImplicitHydrogens Charmm.source_example "CH3E" = inr n ∧
         Charmm.FormalCharge Charmm.source_example "CH3E" = inr c ∧
         (0 ≤ n ≤ 3)%Z ∧
         (n ≠ 0%Z ↔ "CH3E" ∈ ["CH1E"; "CH2E"; "CH3E"; "C5RE"; "C6RE"; "SH1E"; "NH2E"]) ∧
         (c = (-1)%Z ∨ c = 0%Z ∨ c = 1%Z) ∧
         (c = (-1)%Z ↔ "CH3E" = "OC") ∧
         (c = 1%Z ↔ "CH3E" ∈ ["HC"; "NC"]).
Proof.
  assert (H : Charmm.construct Charmm.elements_CHON Charmm.masses_example =
              inr Charmm.source_example) by reflexivity.
  split; [exact H|].
  exact (Charmm_tables _ _ Charmm.source_example "CH3E" H).
Defined.

(** ** The constructor and the element table *)

Lemma add_types_inr_known (el : Charmm.RbtElementFileSource)
    (ds ds' : Charmm.RbtCharmmDataSource) (l : list Charmm.RbtCharmmType) :
  Charmm.add_types el ds l = inr ds' → Charmm.elements_known el l.
Proof.
  revert ds. induction l as [|t l IH]; intros ds; simpl; [by constructor|].
  unfold Charmm.add_type.
  destruct (Charmm.GetElementData el (Charmm.element t)) as [e|d] eqn:Hd; [done|].
  intros H. constructor; [eauto | by eapply IH].
Qed.

(** The constructor builds a data source exactly when the element table
    knows the element of every type of the masses list.  Otherwise it
    throws what [GetElementData] throws for the first type whose element
    is not known. *)
Theorem Charmm_construct_elements (el : Charmm.RbtElementFileSource)
    (l : list Charmm.RbtCharmmType) :
  (Charmm.elements_known el l ↔ ∃ ds, Charmm.construct el l = inr ds) ∧
  (∀ l1 t l2 e,
     l = l1 ++ t :: l2 → Charmm.elements_known el l1 →
     Charmm.GetElementData el (Charmm.element t) = inl e →
     Charmm.construct el l = inl e).
Proof.
  split; [split|].
  - intros Hk. unfold Charmm.construct.
    destruct (add_types_known el (Charmm.mkDataSource ∅ ∅ ∅ ∅ ∅) l Hk) as [ds' ->].
    eauto.
  - intros [ds (ds0 & H & _)%construct_inr]. by eapply add_types_inr_known.
  - intros l1 t l2 e -> Hk He. unfold Charmm.construct.
    by rewrite (add_types_unknown el _ l1 t l2 e Hk He).
Qed.

Lemma Charmm_construct_elements_witness :
  let t := Charmm.mkCharmmType 90 "FE" "Fe" "iron (RBT::UNDEFINED)" in
  Charmm.elements_known Charmm.elements_CHON Charmm.masses_example ∧
  Charmm.GetElementData Charmm.elements_CHON (Charmm.element t) =
    inl (Charmm.RbtFileMissingParameter "Element Fe not found") ∧
  Charmm.construct Charmm.elements_CHON (Charmm.masses_example ++ t :: Charmm.masses_example) =
    inl (Charmm.RbtFileMissingParameter "Element Fe not found").
Proof.
  intros t.
  assert (H1 : Charmm.elements_known Charmm.elements_CHON Charmm.masses_example).
  { apply (proj2 (proj1 (Charmm_construct_elements _ _))).
    exists Charmm.source_example. reflexivity. }
  assert (H2 : Charmm.GetElementData Charmm.elements_CHON (Charmm.element t) =
               inl (Charmm.RbtFileMissingParameter "Element Fe not found"))
    by reflexivity.
  split; [exact H1|]. split; [exact H2|].
  exact (proj2 (Charmm_construct_elements Charmm.elements_CHON _)
           Charmm.masses_example t Charmm.masses_example _ eq_refl H1 H2).
Defined.

(** ** The hybridisation state in a comment *)

Lemma contains_has_char (s pat : string) (a : ascii) (p : string) :
  pat = String a p → contains s pat →
  string_forallb (λ b, negb (Ascii.eqb b a)) s = false.
Proof.
  intros -> (pre & post & ->). induction pre as [|b pre IH].
  - rewrite append_nil_l, append_cons. simpl. by rewrite Ascii.eqb_refl.
  - rewrite append_cons. simpl. by rewrite IH, andb_false_r.
Qed.

(** [ConvertCommentStringToHybridState] looks for the five bracketed
    tags anywhere in the comment and, when several occur, takes the first
    in the order SP, SP2, SP3, AROM, TRI; the state is [UNDEFINED] exactly
    when none occurs, in particular for every comment without an opening
    bracket. *)
Theorem Charmm_hybrid_state_of_comment (s : string) :
  let r := Charmm.ConvertCommentStringToHybridState s in
  (contains s "(RBT::SP)" → r = Charmm.SP) ∧
  (¬ contains s "(RBT::SP)" → contains s "(RBT::SP2)" → r = Charmm.SP2) ∧
  (¬ contains s "(RBT::SP)" → ¬ contains s "(RBT::SP2)" →
   contains s "(RBT::SP3)" → r = Charmm.SP3) ∧
  (¬ contains s "(RBT::SP)" → ¬ contains s "(RBT::SP2)" →
   ¬ contains s "(RBT::SP3)" → contains s "(RBT::AROM)" → r = Charmm.AROM) ∧
  (¬ contains s "(RBT::SP)" → ¬ contains s "(RBT::SP2)" →
   ¬ contains s "(RBT::SP3)" → ¬ contains s "(RBT::AROM)" →
   contains s "(RBT::TRI)" → r = Charmm.TRI) ∧
  (r = Charmm.UNDEFINED ↔
   ¬ contains s "(RBT::SP)" ∧ ¬ contains s "(RBT::SP2)" ∧
   ¬ contains s "(RBT::SP3)" ∧ ¬ contains s "(RBT::AROM)" ∧
   ¬ contains s "(RBT::TRI)") ∧
  (string_forallb (λ b, negb (Ascii.eqb b "(")) s = true → r = Charmm.UNDEFINED).
Proof.
  cbv zeta. unfold Charmm.ConvertCommentStringToHybridState.
  assert (∀ pat, pat ≠ EmptyString →
            (found (find s pat) = true ∧ contains s pat) ∨
            (found (find s pat) = false ∧ ¬ contains s pat)) as Hdec.
  { intros pat Hpat. pose proof (found_find_iff s pat Hpat) as H.
    destruct (found (find s pat)); [left | right]; split; try done.
    - by apply H.
    - intros Hc. apply H in Hc. discriminate. }
  assert (∀ pat p, pat = String "(" p → contains s pat →
            string_forallb (λ b, negb (Ascii.eqb b "(")) s = true → False) as Hb.
  { intros pat p Hp Hc Hf. rewrite (contains_has_char s pat "(" p Hp Hc) in Hf.
    discriminate. }
  destruct (Hdec "(RBT::SP)" ltac:(discriminate)) as [[E1 C1]|[E1 C1]]; rewrite E1.
  { repeat split; try tauto; try discriminate.
    intros Hf. exfalso. by eapply (Hb "(RBT::SP)"). }
  destruct (Hdec "(RBT::SP2)" ltac:(discriminate)) as [[E2 C2]|[E2 C2]]; rewrite E2.
  { repeat split; try tauto; try discriminate.
    intros Hf. exfalso. by eapply (Hb "(RBT::SP2)"). }
  destruct (Hdec "(RBT::SP3)" ltac:(discriminate)) as [[E3 C3]|[E3 C3]]; rewrite E3.
  { repeat split; try tauto; try discriminate.
    intros Hf. exfalso. by eapply (Hb "(RBT::SP3)"). }
  destruct (Hdec "(RBT::AROM)" ltac:(discriminate)) as [[E4 C4]|[E4 C4]]; rewrite E4.
  { repeat split; try tauto; try discriminate.
    intros Hf. exfalso. by eapply (Hb "(RBT::AROM)"). }
  destruct (Hdec "(RBT::TRI)" ltac:(discriminate)) as [[E5 C5]|[E5 C5]]; rewrite E5.
  { repeat split; try tauto; try discriminate.
    intros Hf. exfalso. by eapply (Hb "(RBT::TRI)"). }
  repeat split; tauto.
Qed.

Lemma Charmm_hybrid_state_of_comment_witness :
  ¬ contains "planar N (RBT::TRI) was (RBT::SP2)" "(RBT::SP)" ∧
  contains "planar N (RBT::TRI) was (RBT::SP2)" "(RBT::SP2)" ∧
  Charmm.ConvertCommentStringToHybridState "planar N (RBT::TRI) was (RBT::SP2)" =
    Charmm.SP2.
Proof.
  assert (H1 : ¬ contains "planar N (RBT::TRI) was (RBT::SP2)" "(RBT::SP)").
  { intros H. apply found_find_iff in H; [|discriminate]. vm_compute in H. discriminate. }
  assert (H2 : contains "planar N (RBT::TRI) was (RBT::SP2)" "(RBT::SP2)").
  { apply found_find_iff; [discriminate | reflexivity]. }
  split; [exact H1|]. split; [exact H2|].
  exact (proj1 (proj2 (Charmm_hybrid_state_of_comment _)) H1 H2).
Defined.

(** A tag without its brackets is not seen. *)
Example Charmm_hybrid_state_unbracketed :
  Charmm.ConvertCommentStringToHybridState "aromatic C RBT::AROM" = Charmm.UNDEFINED.
Proof. reflexivity. Qed.

(** * The bimolecular transform as observer *)

Section BiMolFacts.

Import BiMol.

Implicit Types (ws : RbtWorkSpace) (self : RbtBaseBiMolTransform).

(** [Update] on a notification of the work space, part by part. *)
Lemma Update_parts ws self :
  Update ws self (address ws) =
  ((update_solvent ws (GetNumModels ws)
      (update_ligand ws (GetNumModels ws)
         (update_receptor ws (GetNumModels ws) self).1).1).1,
   (update_receptor ws (GetNumModels ws) self).2 ++
   (update_ligand ws (GetNumModels ws)
      (update_receptor ws (GetNumModels ws) self).1).2 ++
   (update_solvent ws (GetNumModels ws)
      (update_ligand ws (GetNumModels ws)
         (update_receptor ws (GetNumModels ws) self).1).1).2 ++
   [SetupTransform]).
Proof.
  unfold Update. rewrite decide_True by done. cbv zeta.
  destruct (update_receptor _ _ _) as [s1 c1]. cbn [fst snd].
  destruct (update_ligand _ _ _) as [s2 c2]. cbn [fst snd].
  by destruct (update_solvent _ _ _) as [s3 c3].
Qed.

Lemma update_receptor_spec ws n self :
  let r := update_receptor ws n self in
  m_spLigand r.1 = m_spLigand self ∧ m_solventList r.1 = m_solventList self ∧
  m_spReceptor r.1 = (if (1 <=? n)%Z then GetModel ws 0 else m_spReceptor self) ∧
  r.2 = (if decide (m_spReceptor r.1 = m_spReceptor self) then [] else [SetupReceptor]).
Proof.
  cbv zeta. unfold update_receptor. destruct (1 <=? n)%Z.
  - destruct (decide (GetModel ws 0 ≠ m_spReceptor self)) as [H|H]; cbn.
    + by rewrite decide_False.
    + apply dec_stable in H. by rewrite decide_True.
  - cbn. by rewrite decide_True.
Qed.

Lemma update_ligand_spec ws n self :
  let r := update_ligand ws n self in
  m_spReceptor r.1 = m_spReceptor self ∧ m_solventList r.1 = m_solventList self ∧
  m_spLigand r.1 = (if (2 <=? n)%Z then GetModel ws 1 else m_spLigand self) ∧
  r.2 = (if decide (m_spLigand r.1 = m_spLigand self) then [] else [SetupLigand]).
Proof.
  cbv zeta. unfold update_ligand. destruct (2 <=? n)%Z.
  - destruct (decide (GetModel ws 1 ≠ m_spLigand self)) as [H|H]; cbn.
    + by rewrite decide_False.
    + apply dec_stable in H. by rewrite decide_True.
  - cbn. by rewrite decide_True.
Qed.

Lemma update_solvent_spec ws n self :
  let r := update_solvent ws n self in
  m_spReceptor r.1 = m_spReceptor self ∧ m_spLigand r.1 = m_spLigand self ∧
  length (m_solventList r.1) = length (solvent_of ws n) ∧
  m_solventList r.1 =
    (if decide (length (solvent_of ws n) = length (m_solventList self))
     then m_solventList self else solvent_of ws n) ∧
  r.2 = (if decide (length (solvent_of ws n) = length (m_solventList self))
         then [] else [SetupSolvent]).
Proof.
  cbv zeta. unfold update_solvent.
  destruct (decide (length (solvent_of ws n) ≠ length (m_solventList self))) as [H|H]; cbn.
  - by rewrite !decide_False.
  - apply dec_stable in H. by rewrite !decide_True.
Qed.

Lemma Update_state ws self :
  let self' := (Update ws self (address ws)).1 in
  let n := GetNumModels ws in
  m_spReceptor self' = (if (1 <=? n)%Z then GetModel ws 0 else m_spReceptor self) ∧
  m_spLigand self' = (if (2 <=? n)%Z then GetModel ws 1 else m_spLigand self) ∧
  length (m_solventList self') = length (solvent_of ws n).
Proof.
  cbv zeta. rewrite Update_parts. cbn [fst].
  set (n := GetNumModels ws).
  destruct (update_receptor_spec ws n self) as (R1 & R2 & R3 & _).
  destruct (update_ligand_spec ws n (update_receptor ws n self).1)
    as (L1 & L2 & L3 & _).
  destruct (update_solvent_spec ws n
              (update_ligand ws n (update_receptor ws n self).1).1)
    as (S1 & S2 & S3 & _).
  cbv zeta in *. by rewrite S1, L1, R3, S2, L3, R1, S3.
Qed.

Lemma update_receptor_fix ws n self :
  m_spReceptor self = (if (1 <=? n)%Z then GetModel ws 0 else m_spReceptor self) →
  update_receptor ws n self = (self, []).
Proof.
  intros H. unfold update_receptor. destruct (1 <=? n)%Z; [|done].
  by rewrite decide_False by (intros Hne; by apply Hne).
Qed.

Lemma update_ligand_fix ws n self :
  m_spLigand self = (if (2 <=? n)%Z then GetModel ws 1 else m_spLigand self) →
  update_ligand ws n self = (self, []).
Proof.
  intros H. unfold update_ligand. destruct (2 <=? n)%Z; [|done].
  by rewrite decide_False by (intros Hne; by apply Hne).
Qed.

Lemma update_solvent_fix ws n self :
  length (m_solventList self) = length (solvent_of ws n) →
  update_solvent ws n self = (self, []).
Proof.
  intros H. unfold update_solvent.
  by rewrite decide_False by (intros Hne; by apply Hne).
Qed.

End BiMolFacts.

(** ** What a notification brings about *)

(** After a notification from the work space the transform holds model 0
    as receptor when there is one, model 1 as ligand when there are two,
    and as many solvent models as the work space.  With fewer models the
    receptor or the ligand it had stays. *)
Theorem Update_members (ws : BiMol.RbtWorkSpace) (self : BiMol.RbtBaseBiMolTransform) :
  let self' := (BiMol.Update ws self (BiMol.address ws)).1 in
  let n := BiMol.GetNumModels ws in
  BiMol.GetReceptor self' =
    (if (1 <=? n)%Z then BiMol.GetModel ws 0 else BiMol.GetReceptor self) ∧
  BiMol.GetLigand self' =
    (if (2 <=? n)%Z then BiMol.GetModel ws 1 else BiMol.GetLigand self) ∧
  length (BiMol.GetSolvent self') = length (BiMol.solvent_of ws n).
Proof.
  cbv zeta. destruct (Update_state ws self) as (H1 & H2 & H3). cbv zeta in *.
  unfold BiMol.GetReceptor, BiMol.GetLigand, BiMol.GetSolvent. done.
Qed.

Example Update_members_example :
  let self' := (BiMol.Update BiMol.workspace_example BiMol.transform_new 7).1 in
  BiMol.GetReceptor self' = Some 10 ∧ BiMol.GetLigand self' = Some 11 ∧
  BiMol.GetSolvent self' = [Some 12; Some 13].
Proof. repeat split; reflexivity. Qed.

(** [Update] calls [SetupTransform] once, last, on every notification
    from the work space, and before it, in this order and each at most
    once, [SetupReceptor] exactly when the receptor pointer was replaced,
    [SetupLigand] exactly when the ligand pointer was replaced, and
    [SetupSolvent] exactly when the number of solvent models changed.  A
    notification from any other subject calls nothing and changes
    nothing. *)
Theorem Update_calls (ws : BiMol.RbtWorkSpace) (self : BiMol.RbtBaseBiMolTransform) :
  let r := BiMol.Update ws self (BiMol.address ws) in
  r.2 =
    (if decide (BiMol.GetReceptor r.1 = BiMol.GetReceptor self)
     then [] else [BiMol.SetupReceptor]) ++
    (if decide (BiMol.GetLigand r.1 = BiMol.GetLigand self)
     then [] else [BiMol.SetupLigand]) ++
    (if decide (length (BiMol.GetSolvent r.1) = length (BiMol.GetSolvent self))
     then [] else [BiMol.SetupSolvent]) ++
    [BiMol.SetupTransform] ∧
  (∀ subject, subject ≠ BiMol.address ws →
              BiMol.Update ws self subject = (self, [])).
Proof.
  cbv zeta. split.
  - rewrite Update_parts. cbn [fst snd].
    unfold BiMol.GetReceptor, BiMol.GetLigand, BiMol.GetSolvent.
    set (n := BiMol.GetNumModels ws).
    destruct (update_receptor_spec ws n self) as (R1 & R2 & R3 & R4).
    destruct (update_ligand_spec ws n (BiMol.update_receptor ws n self).1)
      as (L1 & L2 & L3 & L4).
    destruct (update_solvent_spec ws n
                (BiMol.update_ligand ws n (BiMol.update_receptor ws n self).1).1)
      as (S1 & S2 & S3 & S4 & S5).
    cbv zeta in *. rewrite R4, L4, S5. rewrite S1, L1, S2, S3, L2, R2, R1.
    done.
  - intros subject Hne. unfold BiMol.Update. by rewrite decide_False.
Qed.

Lemma Update_calls_witness :
  (BiMol.Update BiMol.workspace_example BiMol.transform_new 7).2 =
    [BiMol.SetupReceptor; BiMol.SetupLigand; BiMol.SetupSolvent; BiMol.SetupTransform] ∧
  8 ≠ BiMol.address BiMol.workspace_example ∧
  BiMol.Update BiMol.workspace_example BiMol.transform_new 8 =
    (BiMol.transform_new, []).
Proof.
  destruct (Update_calls BiMol.workspace_example BiMol.transform_new) as [H1 H2].
  assert (H : 8 ≠ BiMol.address BiMol.workspace_example) by discriminate.
  split; [exact H1|]. split; [exact H|]. exact (H2 8 H).
Defined.

(** A second notification with the work space unchanged changes nothing
    and calls [SetupTransform] only. *)
Theorem Update_again (ws : BiMol.RbtWorkSpace) (self : BiMol.RbtBaseBiMolTransform) :
  let self' := (BiMol.Update ws self (BiMol.address ws)).1 in
  BiMol.Update ws self' (BiMol.address ws) = (self', [BiMol.SetupTransform]).
Proof.
  cbv zeta. destruct (Update_state ws self) as (H1 & H2 & H3). cbv zeta in *.
  set (self' := (BiMol.Update ws self (BiMol.address ws)).1) in *.
  rewrite Update_parts.
  rewrite (update_receptor_fix ws _ self').
  2:{ rewrite H1. by destruct (1 <=? _)%Z. }
  cbn [fst snd]. rewrite (update_ligand_fix ws _ self').
  2:{ rewrite H2. by destruct (2 <=? _)%Z. }
  cbn [fst snd]. by rewrite (update_solvent_fix ws _ self').
Qed.

(** The solvent is compared by number only.  When the work space holds as
    many solvent models as the transform, the transform keeps the models
    it has, whichever the work space holds now, and [SetupSolvent] is not
    called; when the numbers differ, it takes the solvent of the work
    space and [SetupSolvent] is called. *)
Theorem Update_solvent_by_number (ws : BiMol.RbtWorkSpace) (self : BiMol.RbtBaseBiMolTransform) :
  let r := BiMol.Update ws self (BiMol.address ws) in
  let solvent := BiMol.solvent_of ws (BiMol.GetNumModels ws) in
  (length solvent = length (BiMol.GetSolvent self) →
   BiMol.GetSolvent r.1 = BiMol.GetSolvent self ∧ BiMol.SetupSolvent ∉ r.2) ∧
  (length solvent ≠ length (BiMol.GetSolvent self) →
   BiMol.GetSolvent r.1 = solvent ∧ BiMol.SetupSolvent ∈ r.2).
Proof.
  cbv zeta. rewrite Update_parts. cbn [fst snd]. unfold BiMol.GetSolvent.
  set (n := BiMol.GetNumModels ws).
  destruct (update_receptor_spec ws n self) as (R1 & R2 & R3 & R4).
  destruct (update_ligand_spec ws n (BiMol.update_receptor ws n self).1)
    as (L1 & L2 & L3 & L4).
  destruct (update_solvent_spec ws n
              (BiMol.update_ligand ws n (BiMol.update_receptor ws n self).1).1)
    as (S1 & S2 & S3 & S4 & S5).
  cbv zeta in *. rewrite S4, S5, R4, L4, L2, R2. split; intros H.
  - rewrite !(decide_True (P := length _ = length _)) by done. split; [done|].
    do 2 destruct (decide _); simpl; intros Hin; not_in_list Hin.
  - rewrite !(decide_False (P := length _ = length _)) by done. split; [done|].
    do 2 destruct (decide _); simpl; in_list.
Qed.

Lemma Update_solvent_by_number_witness :
  let self := (BiMol.Update BiMol.workspace_example BiMol.transform_new 7).1 in
  let r := BiMol.Update BiMol.workspace_example' self 7 in
  length (BiMol.solvent_of BiMol.workspace_example' 4) = length (BiMol.GetSolvent self) ∧
  BiMol.solvent_of BiMol.workspace_example' 4 = [Some 22; Some 23] ∧
  BiMol.GetSolvent r.1 = [Some 12; Some 13] ∧ BiMol.SetupSolvent ∉ r.2.
Proof.
  intros self r.
  assert (H : length (BiMol.solvent_of BiMol.workspace_example' 4) =
              length (BiMol.GetSolvent self)) by reflexivity.
  split; [exact H|]. split; [reflexivity|].
  exact (proj1 (Update_solvent_by_number BiMol.workspace_example' self) H).
Defined.
